(** * systemheaven: a shell-like way of using subprocesses

    A shallow embedding of [systemheaven.py] and the properties of its
    variable expansion, its pipeline construction and its [Pipeline]
    wrapper.

    Conventions of the embedding:
    - a Python [str] is a [string]; every character is a code point below
      256, which covers the dollar sign, the pipe character and the white
      space [str.split] looks for in that range;
    - the keyword arguments of [sh] are a [gmap string value] (Python
      keeps the name [pipeline] for the positional parameter; no statement
      below depends on that);
    - [subprocess.Popen] is the collaborator of the module. What it does is
      given by an [os] record (which requests succeed, how a process exits)
      over which every statement is quantified;
    - effects (spawning, waiting, printing to [sys.stderr], raising) are
      threaded through a small state-and-error monad over [world]. *)

From stdpp Require Import base option list strings gmap.
From Stdlib Require Import ZArith Ascii.

Local Open Scope string_scope.
Local Open Scope list_scope.

(** ** Values bound to variables *)

(** The value of a keyword argument: a [str], a sequence of [str], or the
    mapping passed as [_env] (iterating a mapping yields its keys, in
    insertion order). Values that are neither a [str] nor iterable are
    outside the data model of the module. *)
Inductive value :=
  | VStr (s : string)
  | VSeq (l : list string)
  | VMap (m : list (string * string)).

Abbreviation bindings := (gmap string value).

(** ** expandvars *)

Module Expander.

(** [word.startswith("$")] together with [word[1:]]: the name after the
    dollar sign, when the word starts with one. *)
Definition variable_of (word : string) : option string :=
  match word with
  | String "$"%char name => Some name
  | _ => None
  end.

(** The body of the [for word in words] loop, on the list [newwords]. *)
Definition expand_step (kwargs : bindings) (newwords : list string)
    (word : string) : list string :=
  match variable_of word with
  | Some name =>
      let value := default (VStr "") (kwargs !! name) in
      match value with
      | VStr s => newwords ++ [s]        (* isinstance(value, str): append *)
      | VSeq l => newwords ++ l          (* extend *)
      | VMap m => newwords ++ m.*1       (* extend, with the keys *)
      end
  | None => newwords ++ [word]
  end.

(** [expandvars(words, kwargs)] *)
Definition expandvars (words : list string) (kwargs : bindings)
  : list string :=
  foldl (expand_step kwargs) [] words.

(** The expansion rule as the specification words it: what one word
    contributes to the output. *)
Definition substitute (bound : option value) : list string :=
  match bound with
  | None => [""]
  | Some (VStr s) => [s]
  | Some (VSeq l) => l
  | Some (VMap m) => m.*1
  end.

Definition expand_word (kwargs : bindings) (word : string) : list string :=
  match word with
  | String "$"%char name => substitute (kwargs !! name)
  | _ => [word]
  end.

Definition expand_spec (words : list string) (kwargs : bindings)
  : list string :=
  concat (expand_word kwargs <$> words).

End Expander.

Import Expander.

(** ** Splitting the pipeline string *)

Module Split.

(** [str.isspace] on the code points below 256: the ASCII white space
    (tab, line feed, vertical tab, form feed, carriage return, the four
    separators 28..31 and the space), NEL (133) and the no-break space
    (160). *)
Definition isspace (c : ascii) : bool :=
  let n := nat_of_ascii c in
  (Nat.leb 9 n && Nat.leb n 13) || (Nat.leb 28 n && Nat.leb n 32)
  || Nat.eqb n 133 || Nat.eqb n 160.

(** [s.split(sep)] for a one-character separator: the pieces between the
    separators, empty pieces included; never the empty list. *)
Fixpoint split_on (sep : ascii) (s : string) : list string :=
  match s with
  | EmptyString => [""]
  | String c rest =>
      if Ascii.eqb c sep then "" :: split_on sep rest
      else match split_on sep rest with
           | piece :: pieces => String c piece :: pieces
           | [] => [String c ""]
           end
  end.

(** [pipeline.split("|")] *)
Definition split_pipe (pipeline : string) : list string :=
  split_on "|"%char pipeline.

(** [command.split()]: the maximal runs of characters that are not white
    space; no empty word is produced. *)
Fixpoint split_ws (s : string) : list string :=
  match s with
  | EmptyString => []
  | String c rest =>
      if isspace c then split_ws rest
      else match rest with
           | EmptyString => [String c ""]
           | String c' _ =>
               if isspace c' then String c "" :: split_ws rest
               else match split_ws rest with
                    | w :: ws => String c w :: ws
                    | [] => [String c ""]
                    end
           end
  end.

End Split.

Import Split.

(** ** Processes, streams and the collaborator *)

(** The file objects a [Popen] object exposes: the write end of the pipe to
    its standard input, the read end of the pipe from its standard output. *)
Inductive stream :=
  | StdinOf (pid : nat)
  | StdoutOf (pid : nat).

(** What [Popen] is given for [stdin=] and [stdout=]: [None] (inherit the
    caller's stream), the constant [PIPE], or an existing file object. *)
Inductive redirect :=
  | Inherit
  | PIPE
  | File (f : stream).

(** A [Popen] object: the arguments of its creation. Its [returncode]
    attribute is the one part that changes and lives in the [world]. *)
Record process := Process {
  pid : nat;
  args : list string;
  stdin_arg : redirect;
  stdout_arg : redirect;
  cwd : option value;
  env : option value;
}.

(** Modelled from the spec: the stream attributes of the primitive.
    [proc.stdin] and [proc.stdout] are a file object when the stream was
    requested as [PIPE], [None] otherwise. *)
Definition proc_stdin (p : process) : option stream :=
  match stdin_arg p with PIPE => Some (StdinOf (pid p)) | _ => None end.

Definition proc_stdout (p : process) : option stream :=
  match stdout_arg p with PIPE => Some (StdoutOf (pid p)) | _ => None end.

(** An attribute read such as [procs[-1].stdout], used as a [stdin=]
    argument: Python's [None] is [Inherit]. *)
Definition as_redirect (f : option stream) : redirect :=
  match f with Some f => File f | None => Inherit end.

(** The state the module acts on: the processes created so far (in creation
    order; the position is the process id), the [returncode] attribute of
    each [Popen] object ([None] while absent), the lines printed to
    [sys.stderr], and the processes reaped by a blocking wait, in order. *)
Record world := World {
  spawned : list process;
  returncodes : gmap nat Z;
  stderr : list string;
  reaped : list nat;
}.

(** The operating system behind [Popen]: whether a creation request
    succeeds, given the processes that exist, and the status a process exits
    with ([None]: it never exits). *)
Record os := OS {
  os_can_spawn : list process → process → bool;
  os_exit : process → option Z;
}.

Inductive exn :=
  | IndexError     (** indexing an empty sequence *)
  | SpawnError.    (** what [Popen] raises when the system refuses the request *)

(** How a call ends: it returns, it raises, or it blocks for ever. *)
Inductive outcome (A : Type) :=
  | Ok (a : A)
  | Raise (e : exn)
  | Blocked.
Arguments Ok {A} a.
Arguments Raise {A} e.
Arguments Blocked {A}.

Definition M (A : Type) : Type := world → outcome A * world.

Definition ret {A} (a : A) : M A := λ w, (Ok a, w).

Definition bind {A B} (m : M A) (k : A → M B) : M B := λ w,
  match m w with
  | (Ok a, w') => k a w'
  | (Raise e, w') => (Raise e, w')
  | (Blocked, w') => (Blocked, w')
  end.

Definition raise {A} (e : exn) : M A := λ w, (Raise e, w).

Declare Scope sh_scope.
Delimit Scope sh_scope with sh.
Notation "'let*' x := m 'in' k" := (bind m (λ x, k))
  (at level 10, x name, m at level 100, k at level 200) : sh_scope.
Notation "m ;;; k" := (bind m (λ _, k))
  (at level 100, k at level 200, right associativity) : sh_scope.
Local Open Scope sh_scope.

(** [for x in xs: body(x)] *)
Fixpoint for_each {A} (body : A → M unit) (xs : list A) : M unit :=
  match xs with
  | [] => ret tt
  | x :: xs' => body x ;;; for_each body xs'
  end.

Definition WARNING : string :=
  "WARNING: SystemHeaven interprets consecutive pipes (||) as a single one".

(** [print(line, file=sys.stderr)] *)
Definition print_stderr (line : string) : M unit := λ w,
  (Ok tt, World (spawned w) (returncodes w) (stderr w ++ [line]) (reaped w)).

Section Collaborator.
Context (sys : os).

(** Modelled from the spec: [subprocess.Popen], the process-creation
    primitive, which is not part of the repository.
    [Popen(args, stdin=, stdout=, cwd=, env=)] raises [IndexError] on an
    empty argument vector (it reads [args[0]]) and [SpawnError] when the
    system refuses the request; otherwise the new process is appended to
    the table, with no [returncode] yet. *)
Definition Popen (argv : list string) (stdin stdout : redirect)
    (cwd env : option value) : M process := λ w,
  let proc := Process (length (spawned w)) argv stdin stdout cwd env in
  match argv with
  | [] => (Raise IndexError, w)
  | _ =>
      if os_can_spawn sys (spawned w) proc
      then (Ok proc, World (spawned w ++ [proc])
                           (delete (pid proc) (returncodes w))
                           (stderr w) (reaped w))
      else (Raise SpawnError, w)
  end.

(** Modelled from the spec: [Popen.wait], the blocking wait of the
    primitive, which tolerates a process that has already been waited for.
    [proc.wait()] returns the [returncode] at once when it is already set;
    otherwise it blocks until the process exits, reaps it and sets the
    attribute. *)
Definition Popen_wait (proc : process) : M Z := λ w,
  match returncodes w !! pid proc with
  | Some rc => (Ok rc, w)
  | None =>
      match os_exit sys proc with
      | Some rc =>
          (Ok rc, World (spawned w) (<[pid proc := rc]> (returncodes w))
                        (stderr w) (reaped w ++ [pid proc]))
      | None => (Blocked, w)
      end
  end.

(** Modelled from the spec: the exit-status accessor of the primitive.
    [proc.returncode] is [None] until a wait has set it. *)
Definition Popen_returncode (proc : process) : M (option Z) := λ w,
  (Ok (returncodes w !! pid proc), w).

(** [for proc in procs: proc.wait()], the loop [Pipeline.wait] and [sh]
    both run. *)
Definition wait_all (procs : list process) : M unit :=
  for_each (λ proc, Popen_wait proc ;;; ret tt) procs.

End Collaborator.

(** ** The Pipeline class *)

Record Pipeline := MkPipeline {
  procs : list process;
  stdin : option stream;
  stdout : option stream;
}.

(** [Pipeline(procs)]: [procs[0]] and [procs[-1]] raise on the empty list. *)
Definition Pipeline_init (procs : list process) : M Pipeline :=
  match head procs with
  | None => raise IndexError
  | Some first =>
      match last procs with
      | None => raise IndexError
      | Some final =>
          ret (MkPipeline procs (proc_stdin first) (proc_stdout final))
      end
  end.

Section PipelineMethods.
Context (sys : os).

(** The property [returncode]: [self.procs[-1].returncode] *)
Definition returncode (self : Pipeline) : M (option Z) :=
  match last (procs self) with
  | None => raise IndexError
  | Some final => Popen_returncode final
  end.

(** [wait]: waits for every process, in order *)
Definition wait (self : Pipeline) : M (option Z) :=
  wait_all sys (procs self) ;;;
  returncode self.

(** The property [ok]: [self.wait() == 0] *)
Definition ok (self : Pipeline) : M bool :=
  let* r := wait self in
  ret (bool_decide (r = Some 0%Z)).

End PipelineMethods.

(** ** sh *)

(** What [sh] returns: a [Pipeline], or the [returncode] of the last
    process. *)
Inductive result :=
  | Handle (h : Pipeline)
  | ExitCode (rc : option Z).

(** The local variables that live across the iterations of the loop. *)
Record locals := Locals {
  l_procs : list process;
  headpipe : bool;
  tailpipe : bool;
}.

Section Builder.
Context (sys : os) (kwargs : bindings).

(** The body of [for i, command in enumerate(commands)]; [ncommands] is
    [len(commands)], which is at least 1 whenever the body runs. *)
Definition sh_body (ncommands i : nat) (command : string) (st : locals)
  : M locals :=
  let words := split_ws command in
  if bool_decide (length words = 0) then
    if bool_decide (i = 0) then
      ret (Locals (l_procs st) true (tailpipe st))
    else if bool_decide (i = ncommands - 1) then
      ret (Locals (l_procs st) (headpipe st) true)
    else
      print_stderr WARNING ;;; ret st
  else
    let words := expandvars words kwargs in
    let stdout := Inherit in
    let stdin := Inherit in
    let stdin :=
      if headpipe st && bool_decide (length (l_procs st) = 0)
      then PIPE else stdin in
    let stdin :=
      match last (l_procs st) with          (* len(procs) > 0 *)
      | Some prev => as_redirect (proc_stdout prev)
      | None => stdin
      end in
    let stdout := if bool_decide (i < ncommands - 1) then PIPE else stdout in
    let* proc := Popen sys words stdin stdout
                   (kwargs !! "_cwd") (kwargs !! "_env") in
    ret (Locals (l_procs st ++ [proc]) (headpipe st) (tailpipe st)).

Fixpoint sh_loop (ncommands i : nat) (commands : list string) (st : locals)
  : M locals :=
  match commands with
  | [] => ret st
  | command :: rest =>
      let* st' := sh_body ncommands i command st in
      sh_loop ncommands (S i) rest st'
  end.

(** The loop of [sh] from its start, on the split pipeline. *)
Definition sh_build (pipeline : string) : M locals :=
  let commands := split_pipe pipeline in
  sh_loop (length commands) 0 commands (Locals [] false false).

(** [sh(pipeline, **kwargs)] *)
Definition sh (pipeline : string) : M result :=
  let* st := sh_build pipeline in
  if headpipe st || tailpipe st then
    let* h := Pipeline_init (l_procs st) in
    ret (Handle h)
  else
    wait_all sys (l_procs st) ;;;
    match last (l_procs st) with
    | None => raise IndexError
    | Some final =>
        let* rc := Popen_returncode final in
        ret (ExitCode rc)
    end.

End Builder.

(** ** The pipeline as the loop builds it *)

(** A command with no word: [len(words) == 0]. *)
Definition is_empty (command : string) : bool :=
  bool_decide (split_ws command = []).

(** Head-open and tail-open as the specification defines the requests: the
    segment at the first, respectively the last, index has no word. *)
Definition head_open (pipeline : string) : bool :=
  match head (split_pipe pipeline) with
  | Some command => is_empty command
  | None => false
  end.

Definition tail_open (pipeline : string) : bool :=
  match last (split_pipe pipeline) with
  | Some command => is_empty command
  | None => false
  end.

(** The segments that are neither first nor last. *)
Definition interior (commands : list string) : list string :=
  removelast (tail commands).

(** The processes a complete run of the loop creates, from index [i] on:
    [base] is the next process id, [hd] the head flag and [prev] the last
    process created so far. *)
Fixpoint plan (kwargs : bindings) (n i : nat) (commands : list string)
    (base : nat) (hd : bool) (prev : option process) : list process :=
  match commands with
  | [] => []
  | command :: rest =>
      if is_empty command
      then plan kwargs n (S i) rest base (hd || bool_decide (i = 0)) prev
      else
        let proc :=
          Process base (expandvars (split_ws command) kwargs)
            (match prev with
             | Some q => as_redirect (proc_stdout q)
             | None => if hd then PIPE else Inherit
             end)
            (if bool_decide (i < n - 1) then PIPE else Inherit)
            (kwargs !! "_cwd") (kwargs !! "_env") in
        proc :: plan kwargs n (S i) rest (S base) hd (Some proc)
  end.

(** The number of warnings a complete run of the loop prints, from index
    [i] on. *)
Fixpoint warnings (n i : nat) (commands : list string) : nat :=
  match commands with
  | [] => 0
  | command :: rest =>
      (if is_empty command && negb (bool_decide (i = 0))
          && negb (bool_decide (i = n - 1))
       then 1 else 0) + warnings n (S i) rest
  end.

(** The world [w'] has the processes of [w] and, after them, processes that
    were given the reserved entries of [kwargs] as working directory and
    environment. *)
Definition extends (kwargs : bindings) (w w' : world) : Prop :=
  ∃ new, spawned w' = spawned w ++ new
    ∧ Forall (λ p, cwd p = kwargs !! "_cwd" ∧ env p = kwargs !! "_env") new.

(** ** Comparing runs *)

(** Two worlds with the same processes, [returncode]s and reaping order:
    they may differ in what was printed to [sys.stderr]. *)
Definition same_processes (w v : world) : Prop :=
  spawned w = spawned v ∧ returncodes w = returncodes v ∧ reaped w = reaped v.

(** Two runs that end the same way (same value returned, same exception, or
    both blocked) in worlds with the same processes. *)
Definition same_run {A} (r s : outcome A * world) : Prop :=
  r.1 = s.1 ∧ same_processes r.2 s.2.

(** Two positions the loop body cannot tell apart. *)
Definition same_position (n i n' i' : nat) : Prop :=
  (i = 0 ↔ i' = 0) ∧ (i = n - 1 ↔ i' = n' - 1) ∧ (i < n - 1 ↔ i' < n' - 1).

(** ** A system to run the examples on *)

(** Every request with a command succeeds; [false] exits with status 1 and
    every other command with status 0. *)
Definition demo_os : os :=
  OS (λ _ _, true)
     (λ p, match args p with
           | "false" :: _ => Some 1%Z
           | _ => Some 0%Z
           end).

(** Nothing has been created or printed yet. *)
Definition fresh_world : world := World [] ∅ [] [].

(** * Properties *)

(** ** Properties of expandvars *)

Section expander_facts.
Context (kwargs : bindings).

Lemma expand_step_word acc w :
  expand_step kwargs acc w = acc ++ expand_word kwargs w.
Proof.
  unfold expand_step, expand_word, variable_of.
  destruct w as [|c name]; [done|].
  destruct (decide (c = "$"%char)) as [->|Hc].
  - by destruct (kwargs !! name) as [[s|l|m]|].
  - destruct c as [[] [] [] [] [] [] [] []]; try done.
Qed.

Lemma foldl_expand_step acc words :
  foldl (expand_step kwargs) acc words
  = acc ++ concat (expand_word kwargs <$> words).
Proof.
  revert acc. induction words as [|w ws IH]; intros acc; simpl.
  - by rewrite app_nil_r.
  - by rewrite IH, expand_step_word, <-(assoc_L (++)).
Qed.

Lemma expandvars_unfold words :
  expandvars words kwargs = concat (expand_word kwargs <$> words).
Proof. unfold expandvars. by rewrite foldl_expand_step. Qed.

Lemma expandvars_app ws1 ws2 :
  expandvars (ws1 ++ ws2) kwargs
  = expandvars ws1 kwargs ++ expandvars ws2 kwargs.
Proof. by rewrite !expandvars_unfold, fmap_app, concat_app. Qed.

End expander_facts.

(** C1. For every sequence of words and every bindings map, [expandvars]
    returns the words of the specification's rule: a word [$name] bound to a
    string gives that one string (the empty string included), bound to a
    sequence gives all its elements in order, not bound gives one empty
    string; any other word is passed through unchanged. *)
Theorem expandvars_refines_spec (words : list string) (kwargs : bindings) :
  expandvars words kwargs = expand_spec words kwargs.
Proof. apply expandvars_unfold. Qed.

(** C10. The lone word ["$"] is a reference to the variable named by the
    empty string: its expansion is the value bound to [""] (one word for a
    string, the elements of a sequence, one empty word when unbound). The
    word is never passed through: what comes out is decided by the binding
    of [""] alone. *)
Theorem expandvars_lone_dollar (kwargs : bindings) :
  expandvars ["$"] kwargs
  = match kwargs !! "" with
    | Some (VStr s) => [s]
    | Some (VSeq l) => l
    | Some (VMap m) => m.*1
    | None => [""]
    end.
Proof.
  rewrite expandvars_unfold. simpl. rewrite app_nil_r.
  by destruct (kwargs !! "") as [[s|l|m]|].
Qed.

(** The expansions the specification lists as tests. *)
Example expand_nothing : expandvars [] ∅ = [].
Proof. reflexivity. Qed.

Example expand_bound : expandvars ["$x"] {["x" := VStr "hello"]} = ["hello"].
Proof. reflexivity. Qed.

Example expand_unbound : expandvars ["$x"] ∅ = [""].
Proof. reflexivity. Qed.

Example expand_sequence :
  expandvars ["$x"] {["x" := VSeq ["a"; "b"; "c"]]} = ["a"; "b"; "c"].
Proof. reflexivity. Qed.

Example expand_empty_sequence :
  expandvars ["lit"; "$x"; "lit2"] {["x" := VSeq []]} = ["lit"; "lit2"].
Proof. reflexivity. Qed.

Example expand_mapping :
  expandvars ["$_env"] {["_env" := VMap [("HOME", "/root"); ("LANG", "C")]]}
  = ["HOME"; "LANG"].
Proof. reflexivity. Qed.

(** ** Splitting *)

Example split_pipe_plain : split_pipe "grep $pattern file | sort | $head"
  = ["grep $pattern file "; " sort "; " $head"].
Proof. reflexivity. Qed.

Example split_pipe_empty_string : split_pipe "" = [""].
Proof. reflexivity. Qed.

Example split_pipe_double : split_pipe "a || b" = ["a "; ""; " b"].
Proof. reflexivity. Qed.

Example split_ws_words :
  split_ws "  grep  $pattern file " = ["grep"; "$pattern"; "file"].
Proof. reflexivity. Qed.

Example split_ws_blank : split_ws "   " = [].
Proof. reflexivity. Qed.

(** ** One iteration of the loop *)

Section body_facts.
Context (sys : os) (kwargs : bindings).

Lemma sh_body_empty n i command st w :
  is_empty command = true →
  sh_body sys kwargs n i command st w
  = (Ok (Locals (l_procs st)
           (headpipe st || bool_decide (i = 0))
           (tailpipe st
            || (negb (bool_decide (i = 0)) && bool_decide (i = n - 1)))),
     World (spawned w) (returncodes w)
       (stderr w ++ replicate (warnings n i [command]) WARNING)
       (reaped w)).
Proof.
  unfold is_empty, sh_body. intros He. apply bool_decide_eq_true in He.
  simpl. rewrite He. simpl. unfold is_empty. rewrite He.
  rewrite (bool_decide_eq_true_2 ([] = [])) by done. simpl.
  destruct st as [ps h t], w as [sp rcs err rp]; simpl.
  repeat case_bool_decide; simpl;
    rewrite ?orb_true_r, ?orb_false_r, ?app_nil_r; try done; lia.
Qed.

Lemma sh_body_spawn n i command st w st' w' :
  is_empty command = false →
  sh_body sys kwargs n i command st w = (Ok st', w') →
  ∃ proc,
    plan kwargs n i [command] (length (spawned w)) (headpipe st)
      (last (l_procs st)) = [proc]
    ∧ st' = Locals (l_procs st ++ [proc]) (headpipe st) (tailpipe st)
    ∧ w' = World (spawned w ++ [proc])
             (delete (length (spawned w)) (returncodes w))
             (stderr w) (reaped w).
Proof.
  unfold is_empty, sh_body. intros He. apply bool_decide_eq_false in He.
  simpl. unfold is_empty. rewrite (bool_decide_eq_false_2 _ He).
  rewrite bool_decide_eq_false_2
    by (destruct (split_ws command); [done | simpl; lia]).
  unfold bind, Popen.
  set (argv := expandvars (split_ws command) kwargs).
  set (sin := match last (l_procs st) with Some _ => _ | None => _ end).
  set (sout := if bool_decide (i < n - 1) then PIPE else Inherit).
  assert (Hsin : sin = match last (l_procs st) with
                       | Some q => as_redirect (proc_stdout q)
                       | None => if headpipe st then PIPE else Inherit
                       end).
  { subst sin. destruct (last (l_procs st)) as [q|] eqn:Hlast; [done|].
    apply last_None in Hlast. rewrite Hlast. simpl.
    by destruct (headpipe st). }
  rewrite Hsin. clear Hsin sin.
  destruct argv as [|a argv'] eqn:Hargv; [by intros [=]|].
  destruct (os_can_spawn _ _ _); [|by intros [=]].
  unfold ret. intros [= <- <-]. by eexists.
Qed.

End body_facts.

(** ** The loop as a whole *)

Section loop_facts.
Context (sys : os) (kwargs : bindings).

Lemma sh_loop_cons n i command rest st w :
  sh_loop sys kwargs n i (command :: rest) st w
  = match sh_body sys kwargs n i command st w with
    | (Ok st1, w1) => sh_loop sys kwargs n (S i) rest st1 w1
    | (Raise e, w1) => (Raise e, w1)
    | (Blocked, w1) => (Blocked, w1)
    end.
Proof. done. Qed.

(** A run of the loop that completes creates the processes of [plan],
    prints the warnings of [warnings], reaps nothing, and leaves the new
    processes without a [returncode]. *)
Lemma sh_loop_Ok n i commands st w st' w' :
  sh_loop sys kwargs n i commands st w = (Ok st', w') →
  let new := plan kwargs n i commands (length (spawned w)) (headpipe st)
               (last (l_procs st)) in
  l_procs st' = l_procs st ++ new
  ∧ spawned w' = spawned w ++ new
  ∧ stderr w' = stderr w ++ replicate (warnings n i commands) WARNING
  ∧ reaped w' = reaped w
  ∧ ∀ k, returncodes w' !! k
         = if bool_decide (length (spawned w) ≤ k < length (spawned w'))
           then None else returncodes w !! k.
Proof.
  revert i st w. induction commands as [|c rest IH]; intros i st w.
  - intros [= <- <-]. simpl. rewrite !app_nil_r. repeat split; try done.
    intros k. rewrite bool_decide_eq_false_2; [done | lia].
  - rewrite sh_loop_cons. destruct (is_empty c) eqn:He.
    + rewrite sh_body_empty by done. intros Hrun.
      apply IH in Hrun. simpl in Hrun.
      destruct Hrun as (Hp & Hs & He' & Hr & Hrc).
      cbn [plan warnings] in *. rewrite He in *.
      rewrite Nat.add_0_r in He'. repeat split; try done.
      by rewrite He', <-(assoc_L (++)), <-replicate_add.
    + destruct (sh_body sys kwargs n i c st w) as [[st1| |] w1] eqn:Hb;
        try by intros [=].
      apply sh_body_spawn in Hb as (proc & Hplan & -> & ->); [|done].
      intros Hrun. apply IH in Hrun. simpl in Hrun.
      rewrite last_snoc, length_app in Hrun. simpl in Hrun.
      destruct Hrun as (Hp & Hs & He' & Hr & Hrc).
      cbn [plan warnings] in *. rewrite He in *. simpl.
      injection Hplan as <-.
      rewrite Nat.add_1_r in *.
      rewrite Hp, Hs, <-!(assoc_L (++)). repeat split; try done.
      intros k. rewrite Hrc. rewrite Hs, !length_app. simpl.
      destruct (decide (k = length (spawned w))) as [->|Hk].
      * rewrite lookup_delete_eq.
        repeat case_bool_decide; try done; lia.
      * rewrite lookup_delete_ne by done.
        repeat case_bool_decide; try done; lia.
Qed.

(** The two flags after a complete run over the commands from index [i]
    to the last index. *)
Lemma sh_loop_flags n i commands st w st' w' :
  i + length commands = n →
  sh_loop sys kwargs n i commands st w = (Ok st', w') →
  headpipe st'
  = headpipe st
    || (bool_decide (i = 0)
        && match commands with c :: _ => is_empty c | [] => false end)
  ∧ tailpipe st'
    = tailpipe st
      || (negb (bool_decide (n - 1 = 0))
          && match last commands with
             | Some c => is_empty c
             | None => false
             end).
Proof.
  revert i st w. induction commands as [|c rest IH]; intros i st w Hn.
  - intros [= <- <-]. simpl. by rewrite !andb_false_r, !orb_false_r.
  - rewrite sh_loop_cons. simpl in Hn. destruct (is_empty c) eqn:He.
    + rewrite sh_body_empty by done. intros Hrun.
      apply IH in Hrun; [|lia]. simpl in Hrun.
      destruct Hrun as [-> ->]. rewrite last_cons. simpl.
      rewrite orb_false_r, andb_true_r. split; [done|].
      destruct rest as [|c' rest']; simpl in *.
      * rewrite He. destruct (tailpipe st); simpl; [done|].
        repeat case_bool_decide; simpl; try done; lia.
      * rewrite (bool_decide_eq_false_2 (i = n - 1)) by lia.
        rewrite andb_false_r, orb_false_r.
        destruct (last (c' :: rest')) eqn:Hl; [done|].
        by apply last_None in Hl.
    + destruct (sh_body sys kwargs n i c st w) as [[st1| |] w1] eqn:Hb;
        try by intros [=].
      apply sh_body_spawn in Hb as (proc & _ & -> & ->); [|done].
      intros Hrun. apply IH in Hrun; [|lia]. simpl in Hrun.
      destruct Hrun as [-> ->]. rewrite last_cons. simpl.
      rewrite andb_false_r. split; [done|].
      destruct (last rest) eqn:Hl; [done|]. by rewrite He.
Qed.

End loop_facts.

(** ** The shape of the planned pipeline *)

Section plan_facts.
Context (kwargs : bindings).
Implicit Types (commands : list string) (prev : option process).

Lemma is_empty_true command : is_empty command = true ↔ split_ws command = [].
Proof. apply bool_decide_eq_true. Qed.

Lemma is_empty_false command :
  is_empty command = false ↔ split_ws command ≠ [].
Proof. apply bool_decide_eq_false. Qed.

(** One process per command that has words, with the expanded words as
    its argument vector. *)
Lemma plan_args n i commands base hd prev :
  args <$> plan kwargs n i commands base hd prev
  = (λ c, expandvars (split_ws c) kwargs)
      <$> filter (λ c, split_ws c ≠ []) commands.
Proof.
  revert i base hd prev.
  induction commands as [|c rest IH]; intros i base hd prev; [done|].
  cbn [plan]. destruct (is_empty c) eqn:He.
  - apply is_empty_true in He. rewrite filter_cons_False by naive_solver.
    apply IH.
  - apply is_empty_false in He. rewrite filter_cons_True by done.
    cbn. f_equal. apply IH.
Qed.

Lemma plan_nil n i commands base hd prev :
  plan kwargs n i commands base hd prev = [] →
  Forall (λ c, is_empty c = true) commands.
Proof.
  revert i base hd prev.
  induction commands as [|c rest IH]; intros i base hd prev; [done|].
  cbn [plan]. destruct (is_empty c) eqn:He; [|done].
  intros Hnil. constructor; [done|]. by eapply IH.
Qed.

(** Process ids are handed out in creation order. *)
Lemma plan_pids n i commands base hd prev :
  pid <$> plan kwargs n i commands base hd prev
  = seq base (length (plan kwargs n i commands base hd prev)).
Proof.
  revert i base hd prev.
  induction commands as [|c rest IH]; intros i base hd prev; [done|].
  cbn [plan]. destruct (is_empty c); [apply IH|].
  cbn. f_equal. apply IH.
Qed.

(** Every process gets the reserved entries of [kwargs] as working
    directory and environment. *)
Lemma plan_cwd_env n i commands base hd prev :
  Forall (λ p, cwd p = kwargs !! "_cwd" ∧ env p = kwargs !! "_env")
    (plan kwargs n i commands base hd prev).
Proof.
  revert i base hd prev.
  induction commands as [|c rest IH]; intros i base hd prev; [done|].
  cbn [plan]. destruct (is_empty c); [apply IH|].
  constructor; [done | apply IH].
Qed.

(** Every process but the last created writes into a pipe. *)
Lemma plan_stdout_pipe n i commands base hd prev k p :
  i + length commands = n →
  plan kwargs n i commands base hd prev !! k = Some p →
  S k < length (plan kwargs n i commands base hd prev) →
  stdout_arg p = PIPE.
Proof.
  revert i base hd prev k.
  induction commands as [|c rest IH]; intros i base hd prev k Hn; [done|].
  cbn [plan]. simpl in Hn. destruct (is_empty c).
  - apply IH. lia.
  - destruct k as [|k]; simpl.
    + intros [= <-] Hlen. simpl.
      destruct rest as [|c' rest']; [simpl in Hlen; lia|].
      simpl in Hn. rewrite bool_decide_eq_true_2; [done | lia].
    + intros Hk Hlen. eapply IH; [|done|]; lia.
Qed.

(** The first process created after [q] reads what [q] writes. *)
Lemma plan_head_prev n i commands base hd q p :
  head (plan kwargs n i commands base hd (Some q)) = Some p →
  stdin_arg p = as_redirect (proc_stdout q).
Proof.
  revert i base hd.
  induction commands as [|c rest IH]; intros i base hd; [done|].
  cbn [plan]. destruct (is_empty c); [apply IH|].
  by intros [= <-].
Qed.

Lemma plan_chain n i commands base hd prev k p q :
  plan kwargs n i commands base hd prev !! k = Some p →
  plan kwargs n i commands base hd prev !! S k = Some q →
  stdin_arg q = as_redirect (proc_stdout p).
Proof.
  revert i base hd prev k.
  induction commands as [|c rest IH]; intros i base hd prev k; [done|].
  cbn [plan]. destruct (is_empty c); [apply IH|].
  destruct k as [|k]; simpl.
  - intros [= <-] Hq. eapply plan_head_prev. by rewrite head_lookup.
  - apply IH.
Qed.

(** The first process of a pipeline reads from a pipe exactly when the
    head flag is up by the time it is created. *)
Lemma plan_head_stdin n i commands base hd p :
  head (plan kwargs n i commands base hd None) = Some p →
  stdin_arg p
  = if hd || (bool_decide (i = 0)
              && match commands with c :: _ => is_empty c | [] => false end)
    then PIPE else Inherit.
Proof.
  revert i base hd.
  induction commands as [|c rest IH]; intros i base hd; [done|].
  cbn [plan]. destruct (is_empty c).
  - intros Hp. apply IH in Hp. simpl in Hp.
    by rewrite orb_false_r in Hp; rewrite andb_true_r.
  - intros [= <-]. simpl. by rewrite andb_false_r, orb_false_r.
Qed.

(** The last process created writes into a pipe exactly when the last
    command has no word. *)
Lemma plan_last_stdout n i commands base hd prev p :
  i + length commands = n →
  last (plan kwargs n i commands base hd prev) = Some p →
  stdout_arg p
  = if match last commands with Some c => is_empty c | None => false end
    then PIPE else Inherit.
Proof.
  revert i base hd prev.
  induction commands as [|c rest IH]; intros i base hd prev Hn; [done|].
  cbn [plan]. simpl in Hn. rewrite last_cons.
  destruct (is_empty c) eqn:He.
  - intros Hp. destruct rest as [|c' rest']; [done|].
    destruct (last (c' :: rest')) eqn:Hl; [|by apply last_None in Hl].
    eapply IH; [|done]. lia.
  - rewrite last_cons.
    destruct (last (plan kwargs n (S i) rest _ _ _)) as [y|] eqn:Hy.
    + intros [= ->]. destruct rest as [|c' rest']; [done|].
      destruct (last (c' :: rest')) eqn:Hl; [|by apply last_None in Hl].
      eapply IH; [|done]. lia.
    + intros [= <-]. simpl. apply last_None, plan_nil in Hy.
      destruct rest as [|c' rest']; simpl in Hn; simpl.
      * rewrite He. rewrite bool_decide_eq_false_2; [done | lia].
      * rewrite bool_decide_eq_true_2 by lia.
        destruct (last (c' :: rest')) as [cl|] eqn:Hl;
          [|by apply last_None in Hl].
        apply last_Some_elem_of in Hl.
        rewrite Forall_forall in Hy. by rewrite (Hy cl Hl).
Qed.

(** Warnings are printed for the empty commands that are neither first
    nor last, one each. *)
Lemma warnings_inner n i commands :
  0 < i → i + length commands = n →
  warnings n i commands
  = length (filter (λ c, split_ws c = []) (removelast commands)).
Proof.
  revert i. induction commands as [|c rest IH]; intros i Hi Hn; [done|].
  cbn [warnings]. simpl in Hn.
  rewrite (bool_decide_eq_false_2 (i = 0)) by lia.
  destruct rest as [|c' rest']; simpl in Hn.
  - simpl. rewrite bool_decide_eq_true_2 by lia.
    by rewrite andb_false_r.
  - rewrite (bool_decide_eq_false_2 (i = n - 1)) by lia.
    rewrite IH by (simpl; lia). simpl removelast.
    rewrite !andb_true_r. destruct (is_empty c) eqn:He.
    + apply is_empty_true in He. by rewrite filter_cons_True.
    + apply is_empty_false in He. by rewrite filter_cons_False.
Qed.

Lemma warnings_interior commands :
  warnings (length commands) 0 commands
  = length (filter (λ c, split_ws c = []) (interior commands)).
Proof.
  destruct commands as [|c rest]; [done|].
  cbn [warnings]. simpl. rewrite andb_false_r. simpl.
  apply warnings_inner; lia.
Qed.

End plan_facts.

(** ** Waiting *)

Section wait_facts.
Context (sys : os).

Lemma wait_all_cons proc rest w :
  wait_all sys (proc :: rest) w
  = match Popen_wait sys proc w with
    | (Ok _, w1) => wait_all sys rest w1
    | (Raise e, w1) => (Raise e, w1)
    | (Blocked, w1) => (Blocked, w1)
    end.
Proof.
  unfold wait_all. simpl. unfold bind, ret.
  by destruct (Popen_wait sys proc w) as [[rc| |] w1].
Qed.

(** Waiting for processes that were just created and all exit: each one is
    reaped, in order, and gets its exit status as [returncode]. *)
Lemma wait_all_fresh procs w :
  NoDup (pid <$> procs) →
  Forall (λ p, returncodes w !! pid p = None) procs →
  Forall (λ p, is_Some (os_exit sys p)) procs →
  ∃ w2, wait_all sys procs w = (Ok tt, w2)
    ∧ spawned w2 = spawned w
    ∧ stderr w2 = stderr w
    ∧ reaped w2 = reaped w ++ (pid <$> procs)
    ∧ Forall (λ p, returncodes w2 !! pid p = os_exit sys p) procs
    ∧ ∀ k, k ∉ pid <$> procs → returncodes w2 !! k = returncodes w !! k.
Proof.
  revert w. induction procs as [|p ps IH]; intros w Hnd Hnone Hex.
  - exists w. simpl. by rewrite app_nil_r.
  - rewrite fmap_cons in Hnd. apply NoDup_cons in Hnd as [Hp Hnd].
    apply Forall_cons in Hnone as [Hpn Hnone].
    apply Forall_cons in Hex as [[rc Hrc] Hex].
    rewrite wait_all_cons. unfold Popen_wait. rewrite Hpn, Hrc.
    set (w1 := World _ _ _ _).
    destruct (IH w1) as (w2 & Hrun & Hs & He & Hr & Hrcs & Hother);
      [done| |done|].
    { rewrite Forall_forall in Hnone. apply Forall_forall.
      intros q Hq. simpl. rewrite lookup_insert_ne; [by apply Hnone|].
      intros Heq. apply Hp. rewrite Heq. by apply list_elem_of_fmap_2. }
    exists w2. repeat split; try done.
    + rewrite Hr. simpl. by rewrite <-(assoc_L (++)).
    + constructor; [|done]. rewrite Hother by done.
      simpl. by rewrite lookup_insert_eq.
    + intros k Hk. rewrite fmap_cons in Hk.
      apply not_elem_of_cons in Hk as [Hkp Hk].
      rewrite Hother by done. simpl. by rewrite lookup_insert_ne.
Qed.

(** A process that has a [returncode] is not waited for again. *)
Lemma wait_all_done procs w :
  Forall (λ p, is_Some (returncodes w !! pid p)) procs →
  wait_all sys procs w = (Ok tt, w).
Proof.
  induction 1 as [|p ps [rc Hrc] _ IH]; [done|].
  rewrite wait_all_cons. unfold Popen_wait. by rewrite Hrc.
Qed.

(** After a wait that returns, every process has a [returncode], and no
    [returncode] that was set has changed. *)
Lemma wait_all_Ok procs w u w1 :
  wait_all sys procs w = (Ok u, w1) →
  returncodes w ⊆ returncodes w1
  ∧ Forall (λ p, is_Some (returncodes w1 !! pid p)) procs.
Proof.
  revert w. induction procs as [|p ps IH]; intros w.
  - by intros [= <- <-].
  - rewrite wait_all_cons.
    destruct (Popen_wait sys p w) as [[rc| |] w0] eqn:Hw; try by intros [=].
    intros Hrun. apply IH in Hrun as [Hsub Hall].
    assert (returncodes w ⊆ returncodes w0 ∧ is_Some (returncodes w0 !! pid p))
      as [Hsub0 [rc0 Hrc0]].
    { unfold Popen_wait in Hw.
      destruct (returncodes w !! pid p) as [rc'|] eqn:Hrc.
      - injection Hw as <- <-. by rewrite Hrc.
      - destruct (os_exit sys p) as [rc'|]; [|done].
        injection Hw as <- <-. simpl. split.
        + by apply insert_subseteq.
        + rewrite lookup_insert_eq. by eexists. }
    split; [by etrans|]. constructor; [|done].
    exists rc0. by eapply lookup_weaken.
Qed.

End wait_facts.

(** ** The builder from its start *)

Lemma split_on_nonempty sep s : split_on sep s ≠ [].
Proof.
  induction s as [|c rest IH]; simpl; [done|].
  destruct (Ascii.eqb c sep); [done|]. by destruct (split_on sep rest).
Qed.

Lemma split_pipe_length pipeline : 0 < length (split_pipe pipeline).
Proof.
  unfold split_pipe. pose proof (split_on_nonempty "|"%char pipeline).
  destruct (split_on _ _); simpl; [done | lia].
Qed.

Section build_facts.
Context (sys : os) (kwargs : bindings).

(** What a complete run of the loop of [sh] leaves behind. *)
Lemma sh_build_Ok pipeline w st w' :
  sh_build sys kwargs pipeline w = (Ok st, w') →
  let commands := split_pipe pipeline in
  l_procs st
  = plan kwargs (length commands) 0 commands (length (spawned w)) false None
  ∧ spawned w' = spawned w ++ l_procs st
  ∧ stderr w'
    = stderr w
      ++ replicate (length (filter (λ c, split_ws c = []) (interior commands)))
           WARNING
  ∧ reaped w' = reaped w
  ∧ (∀ p, p ∈ l_procs st → returncodes w' !! pid p = None)
  ∧ headpipe st = head_open pipeline
  ∧ tailpipe st
    = negb (bool_decide (length commands - 1 = 0)) && tail_open pipeline.
Proof.
  unfold sh_build. intros Hrun. simpl.
  pose proof (sh_loop_Ok _ _ _ _ _ _ _ _ _ Hrun) as Hok.
  apply sh_loop_flags in Hrun as [Hh Ht]; [|done].
  simpl in Hok, Hh, Ht. destruct Hok as (Hp & Hs & He & Hr & Hrc).
  rewrite Hp, Hs, He, warnings_interior. repeat split; try done.
  2: { rewrite Hh. unfold head_open. by destruct (split_pipe pipeline). }
  intros p Hin. rewrite Hrc.
  apply (list_elem_of_fmap_2 pid) in Hin. rewrite plan_pids in Hin.
  apply elem_of_seq in Hin. rewrite Hs, length_app.
  rewrite bool_decide_eq_true_2; [done | lia].
Qed.

(** With no command that has a word, the loop completes and creates no
    process. *)
Lemma sh_loop_all_empty n i commands st w :
  Forall (λ c, is_empty c = true) commands →
  ∃ st' w', sh_loop sys kwargs n i commands st w = (Ok st', w')
    ∧ l_procs st' = l_procs st ∧ spawned w' = spawned w.
Proof.
  intros Hall. revert i st w.
  induction Hall as [|c rest He _ IH]; intros i st w.
  - by exists st, w.
  - rewrite sh_loop_cons, sh_body_empty by done.
    destruct (IH (S i) (Locals (l_procs st)
                (headpipe st || bool_decide (i = 0))
                (tailpipe st || (negb (bool_decide (i = 0))
                                 && bool_decide (i = n - 1))))
                (World (spawned w) (returncodes w)
                   (stderr w ++ replicate (warnings n i [c]) WARNING)
                   (reaped w)))
      as (st' & w' & -> & Hp & Hs).
    by exists st', w'.
Qed.

(** Whatever way [sh] ends, the processes that existed are still in the
    table, and every process created since has the reserved entries of
    [kwargs] as working directory and environment. *)
Lemma extends_refl w : extends kwargs w w.
Proof. exists []. by rewrite app_nil_r. Qed.

Lemma extends_trans w1 w2 w3 :
  extends kwargs w1 w2 → extends kwargs w2 w3 → extends kwargs w1 w3.
Proof.
  intros (n1 & H1 & F1) (n2 & H2 & F2). exists (n1 ++ n2).
  rewrite H2, H1, <-(assoc_L (++)). split; [done|]. by apply Forall_app.
Qed.

Lemma sh_body_extends n i command st w :
  extends kwargs w (sh_body sys kwargs n i command st w).2.
Proof.
  destruct (is_empty command) eqn:He.
  - rewrite sh_body_empty by done. simpl. exists []. by rewrite app_nil_r.
  - destruct (sh_body sys kwargs n i command st w) as [[st1| |] w1] eqn:Hb.
    + apply sh_body_spawn in Hb as (proc & Hplan & _ & ->); [|done]. simpl.
      exists [proc]. split; [done|]. rewrite <-Hplan. apply plan_cwd_env.
    + revert Hb. unfold sh_body, bind, Popen.
      repeat case_match; intros; simplify_eq; apply extends_refl.
    + revert Hb. unfold sh_body, bind, Popen.
      repeat case_match; intros; simplify_eq; apply extends_refl.
Qed.

Lemma sh_loop_extends n i commands st w :
  extends kwargs w (sh_loop sys kwargs n i commands st w).2.
Proof.
  revert i st w. induction commands as [|c rest IH]; intros i st w.
  - apply extends_refl.
  - rewrite sh_loop_cons. pose proof (sh_body_extends n i c st w) as Hb.
    destruct (sh_body sys kwargs n i c st w) as [[st1| |] w1]; try done.
    eapply extends_trans; [exact Hb | apply IH].
Qed.

Lemma wait_all_spawned procs w :
  spawned (wait_all sys procs w).2 = spawned w.
Proof.
  revert w. induction procs as [|p ps IH]; intros w; [done|].
  rewrite wait_all_cons. unfold Popen_wait.
  repeat case_match; simplify_eq; try done; by rewrite IH.
Qed.

Lemma sh_extends pipeline w :
  extends kwargs w (sh sys kwargs pipeline w).2.
Proof.
  unfold sh, bind.
  pose proof (sh_loop_extends (length (split_pipe pipeline)) 0
                (split_pipe pipeline) (Locals [] false false) w) as Hb.
  fold (sh_build sys kwargs pipeline) in Hb.
  destruct (sh_build sys kwargs pipeline w) as [[st| |] w1]; try done.
  simpl in Hb. destruct (headpipe st || tailpipe st).
  - unfold Pipeline_init, raise, ret.
    by repeat case_match; simplify_eq.
  - pose proof (wait_all_spawned (l_procs st) w1) as Hw.
    destruct Hb as (new & Hs & Hf). exists new. split; [|done].
    rewrite <-Hs, <-Hw.
    destruct (wait_all sys (l_procs st) w1) as [[[]| |] w2]; try done.
    unfold raise, bind, Popen_returncode, ret.
    by destruct (last (l_procs st)).
Qed.

(** On a system that accepts every request with a command, the loop
    completes as soon as no segment expands to an empty argument vector. *)
Lemma sh_loop_completes n i commands st w :
  (∀ table p, args p ≠ [] → os_can_spawn sys table p = true) →
  Forall (λ c, split_ws c ≠ [] → expandvars (split_ws c) kwargs ≠ [])
    commands →
  ∃ st' w', sh_loop sys kwargs n i commands st w = (Ok st', w').
Proof.
  intros Hsys Hall. revert i st w.
  induction Hall as [|c rest Hc _ IH]; intros i st w; [by eexists _, _|].
  rewrite sh_loop_cons. destruct (is_empty c) eqn:He.
  - rewrite sh_body_empty by done. apply IH.
  - apply is_empty_false in He. specialize (Hc He).
    unfold sh_body. rewrite bool_decide_eq_false_2
      by (destruct (split_ws c); [done | simpl; lia]).
    unfold bind, Popen.
    destruct (expandvars (split_ws c) kwargs) as [|a argv] eqn:Hargv;
      [done|].
    rewrite Hsys by done. apply IH.
Qed.

End build_facts.

(** The loop on the empty pipeline string. *)
Lemma sh_build_empty (sys : os) (kwargs : bindings) (w : world) :
  sh_build sys kwargs "" w = (Ok (Locals [] true false), w).
Proof. by destruct w. Qed.

(** ** The claims about sh *)

(** C2. When neither the first nor the last segment is empty, every spawn
    succeeds and every process exits, [sh] waits for every process it
    created, in pipeline order, and returns the exit status of the last one
    alone, whatever the others exited with. *)
Theorem sh_blocking_returns_last_status
    (sys : os) (kwargs : bindings) (pipeline : string) (w : world)
    (st : locals) (w1 : world) :
  head_open pipeline = false →
  tail_open pipeline = false →
  sh_build sys kwargs pipeline w = (Ok st, w1) →
  Forall (λ p, is_Some (os_exit sys p)) (l_procs st) →
  ∃ final rc w2,
    last (l_procs st) = Some final
    ∧ os_exit sys final = Some rc
    ∧ sh sys kwargs pipeline w = (Ok (ExitCode (Some rc)), w2)
    ∧ spawned w2 = spawned w ++ l_procs st
    ∧ reaped w2 = reaped w ++ (pid <$> l_procs st)
    ∧ Forall (λ p, returncodes w2 !! pid p = os_exit sys p) (l_procs st).
Proof.
  intros Hhead Htail Hbuild Hexit.
  pose proof (sh_build_Ok _ _ _ _ _ _ Hbuild) as Hok. simpl in Hok.
  destruct Hok as (Hp & Hs & _ & Hr & Hrc & Hh & Ht).
  assert (Hne : l_procs st ≠ []).
  { rewrite Hp. unfold head_open in Hhead.
    pose proof (split_pipe_length pipeline) as Hlen.
    destruct (split_pipe pipeline) as [|c rest]; [simpl in Hlen; lia|].
    simpl in Hhead. cbn [plan]. by rewrite Hhead. }
  destruct (last (l_procs st)) as [final|] eqn:Hlast;
    [|by apply last_None in Hlast].
  destruct (wait_all_fresh sys (l_procs st) w1)
    as (w2 & Hwait & Hs2 & _ & Hr2 & Hrc2 & _).
  { rewrite Hp, plan_pids. apply NoDup_seq. }
  { by apply Forall_forall. }
  { done. }
  pose proof (last_Some_elem_of _ _ Hlast) as Hin.
  rewrite Forall_forall in Hexit. destruct (Hexit _ Hin) as [rc Hfin].
  exists final, rc, w2. repeat split; try done.
  - unfold sh, bind. rewrite Hbuild, Hh, Ht, Hhead, Htail, andb_false_r.
    simpl. rewrite Hwait, Hlast. unfold Popen_returncode.
    rewrite Forall_forall in Hrc2. by rewrite (Hrc2 _ Hin), Hfin.
  - by rewrite Hs2.
  - by rewrite Hr2, Hr.
Qed.

(** [sh("false | true")] on the example system: the status of [true]. *)
Lemma sh_false_true :
  ∃ w2, sh demo_os ∅ "false | true" fresh_world
        = (Ok (ExitCode (Some 0%Z)), w2)
    ∧ reaped w2 = [0; 1].
Proof.
  destruct (sh_blocking_returns_last_status demo_os ∅ "false | true"
              fresh_world
              (Locals [Process 0 ["false"] Inherit PIPE None None;
                       Process 1 ["true"] (File (StdoutOf 0)) Inherit
                         None None] false false)
              (World [Process 0 ["false"] Inherit PIPE None None;
                      Process 1 ["true"] (File (StdoutOf 0)) Inherit
                        None None] (delete 1 (delete 0 ∅)) [] []))
    as (final & rc & w2 & Hlast & Hrc & Hsh & _ & Hr & _).
  - reflexivity.
  - reflexivity.
  - reflexivity.
  - repeat constructor; by eexists.
  - injection Hlast as <-. injection Hrc as <-. by exists w2.
Defined.

(** C3, as the code has it. On the empty pipeline string the one segment,
    at index 0, raises the head flag only: the test for the last index is
    the [elif] of the test for index 0. No process is created. *)
Theorem sh_build_empty_string (sys : os) (kwargs : bindings) (w : world) :
  ∃ st, sh_build sys kwargs "" w = (Ok st, w)
    ∧ headpipe st = true ∧ tailpipe st = false ∧ l_procs st = [].
Proof. eexists. split; [apply sh_build_empty | done]. Qed.

(** C3 as stated fails: the tail flag is not raised. *)
Lemma sh_build_empty_string_tail_flag :
  ¬ (∀ (sys : os) (kwargs : bindings) (w : world),
       ∃ st w', sh_build sys kwargs "" w = (Ok st, w')
         ∧ headpipe st = true ∧ tailpipe st = true
         ∧ spawned w' = spawned w).
Proof.
  intros Hclaim.
  destruct (Hclaim demo_os ∅ fresh_world) as (st & w' & Hrun & _ & Ht & _).
  rewrite sh_build_empty in Hrun. by injection Hrun as <- <-.
Qed.

(** C4. [sh("")] raises: with the head flag up and no process created,
    [Pipeline([])] indexes the empty list. *)
Theorem sh_empty_string_raises (sys : os) (kwargs : bindings) (w : world) :
  Pipeline_init [] w = (Raise IndexError, w)
  ∧ sh sys kwargs "" w = (Raise IndexError, w).
Proof.
  split; [done|]. unfold sh, bind. by rewrite sh_build_empty.
Qed.

(** C5, as the code has it. A name that starts with an underscore is looked
    up like any other name: [$_name] becomes the value bound to [_name] (one
    word for a string, the elements of a sequence, one empty word when it
    is not bound). The entries [_cwd] and [_env] of the same map are also
    what every process [sh] creates is given as working directory and
    environment. *)
Theorem reserved_names_expand_like_any_other
    (sys : os) (kwargs : bindings) (name pipeline : string) (w : world) :
  expandvars ["$_" +:+ name] kwargs = substitute (kwargs !! ("_" +:+ name))
  ∧ ∃ new, spawned (sh sys kwargs pipeline w).2 = spawned w ++ new
      ∧ Forall (λ p, cwd p = kwargs !! "_cwd" ∧ env p = kwargs !! "_env") new.
Proof.
  split.
  - rewrite expandvars_unfold. simpl. by rewrite app_nil_r.
  - apply sh_extends.
Qed.

(** C5 as stated fails: [$_cwd] is replaced by the value of [_cwd], exactly
    as [$dir] is replaced by the value of [dir]. *)
Lemma reserved_name_is_substituted :
  expandvars ["cd"; "$_cwd"] {["_cwd" := VStr "/srv"]} = ["cd"; "/srv"]
  ∧ expandvars ["cd"; "$dir"] {["dir" := VStr "/srv"]} = ["cd"; "/srv"]
  ∧ ¬ (∀ (kwargs : bindings) (name : string) (v : value),
         kwargs !! ("_" +:+ name) = Some v →
         expandvars ["$_" +:+ name] kwargs ≠ substitute (Some v)).
Proof.
  split; [done|]. split; [done|]. intros Hclaim.
  by apply (Hclaim {["_cwd" := VStr "/srv"]} "cwd" (VStr "/srv")).
Qed.

(** C7. A pipeline string whose segments are all empty asks for an open
    head, and [sh] returns no handle for it: no process is created and
    [Pipeline([])] raises. *)
Theorem sh_all_empty_returns_no_handle
    (sys : os) (kwargs : bindings) (pipeline : string) (w : world) :
  Forall (λ c, split_ws c = []) (split_pipe pipeline) →
  head_open pipeline = true
  ∧ ∃ w', sh sys kwargs pipeline w = (Raise IndexError, w')
      ∧ spawned w' = spawned w.
Proof.
  intros Hall.
  assert (Hall' : Forall (λ c, is_empty c = true) (split_pipe pipeline)).
  { eapply Forall_impl; [exact Hall|]. intros c. apply is_empty_true. }
  assert (Hhead : head_open pipeline = true).
  { unfold head_open. pose proof (split_pipe_length pipeline) as Hlen.
    destruct Hall' as [|c rest Hc _]; [simpl in Hlen; lia | done]. }
  split; [done|].
  destruct (sh_loop_all_empty sys kwargs (length (split_pipe pipeline)) 0
              (split_pipe pipeline) (Locals [] false false) w Hall')
    as (st & w' & Hrun & Hp & Hs).
  fold (sh_build sys kwargs pipeline) in Hrun.
  pose proof (sh_build_Ok _ _ _ _ _ _ Hrun) as Hok. simpl in Hok.
  destruct Hok as (_ & _ & _ & _ & _ & Hh & _).
  exists w'. split; [|done].
  unfold sh, bind. rewrite Hrun, Hh, Hhead. simpl in *. by rewrite Hp.
Qed.

(** The empty string and the lone pipe are such pipelines. *)
Lemma sh_lone_pipe_returns_no_handle :
  head_open "|" = true
  ∧ ∃ w', sh demo_os ∅ "|" fresh_world = (Raise IndexError, w')
      ∧ spawned w' = spawned fresh_world.
Proof.
  apply (sh_all_empty_returns_no_handle demo_os ∅ "|" fresh_world).
  repeat constructor.
Defined.

(** What remains of C7: a handle is returned only on request, and a request
    is answered with a handle as soon as one process was created. *)
Lemma sh_handle_only_on_request
    (sys : os) (kwargs : bindings) (pipeline : string) (w : world)
    (h : Pipeline) (w' : world) :
  sh sys kwargs pipeline w = (Ok (Handle h), w') →
  head_open pipeline || tail_open pipeline = true.
Proof.
  unfold sh, bind.
  destruct (sh_build sys kwargs pipeline w) as [[st| |] w1] eqn:Hrun;
    try by intros [=].
  pose proof (sh_build_Ok _ _ _ _ _ _ Hrun) as Hok. simpl in Hok.
  destruct Hok as (_ & _ & _ & _ & _ & Hh & Ht).
  destruct (headpipe st || tailpipe st) eqn:Hflags.
  - intros _. rewrite Hh, Ht in Hflags.
    destruct (head_open pipeline); [done|]. simpl in *.
    by apply andb_true_iff in Hflags as [_ ->].
  - destruct (wait_all sys (l_procs st) w1) as [[[]| |] w2];
      try by intros [=].
    unfold raise, bind, Popen_returncode, ret.
    by destruct (last (l_procs st)); intros [=].
Qed.

Lemma sh_request_answered
    (sys : os) (kwargs : bindings) (pipeline : string) (w : world)
    (st : locals) (w1 : world) :
  sh_build sys kwargs pipeline w = (Ok st, w1) →
  l_procs st ≠ [] →
  head_open pipeline || tail_open pipeline = true →
  ∃ h, sh sys kwargs pipeline w = (Ok (Handle h), w1) ∧ procs h = l_procs st.
Proof.
  intros Hrun Hne Hreq.
  pose proof (sh_build_Ok _ _ _ _ _ _ Hrun) as Hok. simpl in Hok.
  destruct Hok as (Hp & _ & _ & _ & _ & Hh & Ht).
  assert (Hflags : headpipe st || tailpipe st = true).
  { rewrite Hh, Ht. destruct (head_open pipeline) eqn:Hho; [done|].
    simpl in *.
    rewrite Hreq, andb_true_r. apply negb_true_iff, bool_decide_eq_false.
    intros Hlen. unfold head_open, tail_open in *.
    destruct (split_pipe pipeline) as [|c [|c' rest]]; simpl in *;
      try done; congruence. }
  unfold sh, bind. rewrite Hrun, Hflags. unfold Pipeline_init.
  destruct (l_procs st) as [|p ps] eqn:Hl; [done|]. simpl.
  destruct (last (p :: ps)) eqn:Hlast; [|by apply last_None in Hlast].
  eexists. split; [reflexivity | done].
Qed.

(** ** Runs that differ in what they print only *)

Section same_run_facts.
Context (sys : os) (kwargs : bindings).

Lemma same_processes_refl w : same_processes w w.
Proof. done. Qed.

Lemma bind_same_run {A B} (m m' : M A) (k k' : A → M B) w v :
  same_run (m w) (m' v) →
  (∀ a w1 v1, same_processes w1 v1 → same_run (k a w1) (k' a v1)) →
  same_run (bind m k w) (bind m' k' v).
Proof.
  unfold bind. intros [Ho Hw] Hk.
  destruct (m w) as [[a| |] w1], (m' v) as [[a'| |] v1];
    simpl in *; simplify_eq; try done.
  by apply Hk.
Qed.

Lemma bind_same_run_l {A B} (m : M A) (k : A → M B) (r : outcome B * world)
    a w v :
  same_run (m w) (Ok a, v) →
  (∀ w1, same_processes w1 v → same_run (k a w1) r) →
  same_run (bind m k w) r.
Proof.
  unfold bind. intros [Ho Hw] Hk.
  destruct (m w) as [[a'| |] w1]; simpl in *; simplify_eq.
  by apply Hk.
Qed.

Lemma Popen_same_run argv sin sout dir environ w v :
  same_processes w v →
  same_run (Popen sys argv sin sout dir environ w)
           (Popen sys argv sin sout dir environ v).
Proof.
  intros (Hs & Hrc & Hr). unfold Popen. rewrite Hs.
  destruct argv; [done|].
  destruct (os_can_spawn sys _ _); [|done].
  split; [done|]. split; simpl; [|split]; congruence.
Qed.

Lemma wait_all_same_run procs w v :
  same_processes w v →
  same_run (wait_all sys procs w) (wait_all sys procs v).
Proof.
  revert w v. induction procs as [|p ps IH]; intros w v Hwv; [done|].
  rewrite !wait_all_cons. destruct Hwv as (Hs & Hrc & Hr).
  unfold Popen_wait. rewrite Hrc.
  destruct (returncodes v !! pid p); [by apply IH|].
  destruct (os_exit sys p); [|done].
  apply IH. split; simpl; [|split]; congruence.
Qed.

Lemma sh_body_same_run n i n' i' command st w v :
  same_position n i n' i' →
  same_processes w v →
  same_run (sh_body sys kwargs n i command st w)
           (sh_body sys kwargs n' i' command st v).
Proof.
  intros (H0 & Hlast & Hlt) Hwv. unfold sh_body.
  rewrite (bool_decide_ext _ _ H0), (bool_decide_ext _ _ Hlast),
    (bool_decide_ext _ _ Hlt).
  repeat case_bool_decide; try done;
    first [ by destruct Hwv as (? & ? & ?)
          | apply bind_same_run; [by apply Popen_same_run | done] ].
Qed.

(** An empty command in the interior changes nothing but [sys.stderr]. *)
Lemma sh_body_interior n i command st w v :
  is_empty command = true → i ≠ 0 → i ≠ n - 1 →
  same_processes w v →
  same_run (sh_body sys kwargs n i command st w) (Ok st, v).
Proof.
  intros He H0 Hlast Hwv. rewrite sh_body_empty by done.
  rewrite !bool_decide_eq_false_2 by done. simpl.
  rewrite !orb_false_r. by destruct st.
Qed.

Lemma sh_loop_same_run n i n' i' commands st w v :
  (∀ j, j < length commands → same_position n (i + j) n' (i' + j)) →
  same_processes w v →
  same_run (sh_loop sys kwargs n i commands st w)
           (sh_loop sys kwargs n' i' commands st v).
Proof.
  revert i i' st w v.
  induction commands as [|c rest IH]; intros i i' st w v Hpos Hwv; [done|].
  simpl. apply bind_same_run.
  - apply sh_body_same_run; [|done].
    specialize (Hpos 0). rewrite !Nat.add_0_r in Hpos.
    apply Hpos. simpl. lia.
  - intros st1 w1 v1 Hwv1. apply IH; [|done].
    intros j Hj. specialize (Hpos (S j)).
    rewrite !Nat.add_succ_r in Hpos. apply Hpos. simpl. lia.
Qed.

Lemma sh_loop_app n i xs ys st w :
  sh_loop sys kwargs n i (xs ++ ys) st w
  = bind (sh_loop sys kwargs n i xs st)
      (sh_loop sys kwargs n (i + length xs) ys) w.
Proof.
  revert i st w. induction xs as [|x xs IH]; intros i st w.
  - simpl. by rewrite Nat.add_0_r.
  - rewrite <-app_comm_cons. unfold bind. rewrite !sh_loop_cons.
    destruct (sh_body sys kwargs n i x st w) as [[st1| |] w1]; try done.
    rewrite IH. unfold bind. simpl. by rewrite Nat.add_succ_r.
Qed.

(** The loop over commands with an empty one in the interior, and the loop
    over the same commands without it. *)
Lemma sh_loop_skip_interior before command after st w :
  before ≠ [] → after ≠ [] → is_empty command = true →
  same_run
    (sh_loop sys kwargs (length (before ++ command :: after)) 0
       (before ++ command :: after) st w)
    (sh_loop sys kwargs (length (before ++ after)) 0
       (before ++ after) st w).
Proof.
  intros Hb Ha He. rewrite !sh_loop_app, !length_app. simpl.
  assert (0 < length before) by (destruct before; simpl; [done | lia]).
  assert (0 < length after) by (destruct after; simpl; [done | lia]).
  apply bind_same_run.
  - apply sh_loop_same_run; [|done]. intros j Hj. unfold same_position. lia.
  - intros st1 w1 v1 Hwv. eapply bind_same_run_l.
    + apply sh_body_interior; [done| | |exact Hwv]; lia.
    + intros w2 Hw2. apply sh_loop_same_run; [|done].
      intros j Hj. unfold same_position. lia.
Qed.

(** What [sh] does after the loop. *)
Lemma sh_finish_same_run st w v :
  same_processes w v →
  same_run
    ((if headpipe st || tailpipe st then
        bind (Pipeline_init (l_procs st)) (λ h, ret (Handle h))
      else
        bind (wait_all sys (l_procs st)) (λ _,
          match last (l_procs st) with
          | None => raise IndexError
          | Some final =>
              bind (Popen_returncode final) (λ rc, ret (ExitCode rc))
          end)) w)
    ((if headpipe st || tailpipe st then
        bind (Pipeline_init (l_procs st)) (λ h, ret (Handle h))
      else
        bind (wait_all sys (l_procs st)) (λ _,
          match last (l_procs st) with
          | None => raise IndexError
          | Some final =>
              bind (Popen_returncode final) (λ rc, ret (ExitCode rc))
          end)) v).
Proof.
  intros Hwv. destruct (headpipe st || tailpipe st).
  - unfold Pipeline_init, bind, raise, ret.
    by repeat case_match; simplify_eq.
  - apply bind_same_run; [by apply wait_all_same_run|].
    intros _ w1 v1 Hwv1. destruct (last (l_procs st)); [|done].
    unfold bind, Popen_returncode, ret. simpl.
    destruct Hwv1 as (? & Hrc & ?). by rewrite Hrc.
Qed.

End same_run_facts.

Lemma split_on_app sep s1 s2 :
  split_on sep (s1 +:+ String sep s2) = split_on sep s1 ++ split_on sep s2.
Proof.
  induction s1 as [|c rest IH]; simpl.
  - by rewrite Ascii.eqb_refl.
  - destruct (Ascii.eqb c sep); [by rewrite IH|].
    rewrite IH. pose proof (split_on_nonempty sep rest).
    by destruct (split_on sep rest).
Qed.

Section interior_segments.
Context (sys : os) (kwargs : bindings).

(** [sh] on a pipeline string with an empty segment that is neither first
    nor last, and on a pipeline string with the same segments but that
    one. *)
Lemma sh_skip_interior pipeline pipeline' before e after w :
  split_pipe pipeline = before ++ e :: after →
  split_pipe pipeline' = before ++ after →
  before ≠ [] → after ≠ [] → split_ws e = [] →
  same_run (sh sys kwargs pipeline w) (sh sys kwargs pipeline' w).
Proof.
  intros H1 H2 Hb Ha He. unfold sh, sh_build. rewrite H1, H2.
  apply bind_same_run.
  - apply sh_loop_skip_interior; [done | done | by apply is_empty_true].
  - intros st w1 v1 Hwv. by apply sh_finish_same_run.
Qed.

(** The same on the strings themselves: leaving out an empty segment
    together with one of the pipes around it. *)
Lemma split_pipe_interior s1 e s2 :
  split_pipe e = [e] →
  split_pipe (s1 +:+ "|" +:+ e +:+ "|" +:+ s2)
  = split_pipe s1 ++ e :: split_pipe s2
  ∧ split_pipe (s1 +:+ "|" +:+ s2) = split_pipe s1 ++ split_pipe s2.
Proof.
  unfold split_pipe. intros He.
  change (s1 +:+ "|" +:+ e +:+ "|" +:+ s2)
    with (s1 +:+ String "|" (e +:+ String "|" s2)).
  change (s1 +:+ "|" +:+ s2) with (s1 +:+ String "|" s2).
  by rewrite !split_on_app, He.
Qed.

Lemma sh_skip_interior_string s1 e s2 w :
  split_pipe e = [e] → split_ws e = [] →
  same_run (sh sys kwargs (s1 +:+ "|" +:+ e +:+ "|" +:+ s2) w)
           (sh sys kwargs (s1 +:+ "|" +:+ s2) w).
Proof.
  intros Hsplit He.
  apply split_pipe_interior with (s1 := s1) (s2 := s2) in Hsplit as [H1 H2].
  eapply sh_skip_interior; [exact H1 | exact H2 | | | done];
    apply split_on_nonempty.
Qed.

(** The processes of a completed build: one per segment that has words,
    each reading what the one before it writes. *)
Lemma sh_build_wiring pipeline w st w' :
  sh_build sys kwargs pipeline w = (Ok st, w') →
  args <$> l_procs st
  = (λ c, expandvars (split_ws c) kwargs)
      <$> filter (λ c, split_ws c ≠ []) (split_pipe pipeline)
  ∧ ∀ k p q,
      l_procs st !! k = Some p → l_procs st !! S k = Some q →
      stdout_arg p = PIPE ∧ stdin_arg q = File (StdoutOf (pid p)).
Proof.
  intros Hrun. apply sh_build_Ok in Hrun. simpl in Hrun.
  destruct Hrun as (Hp & _). rewrite Hp. split; [apply plan_args|].
  intros k p q Hk Hq.
  assert (Hout : stdout_arg p = PIPE).
  { eapply plan_stdout_pipe; [|exact Hk|]; [done|].
    by apply lookup_lt_Some in Hq. }
  split; [done|].
  rewrite (plan_chain _ _ _ _ _ _ _ _ _ _ Hk Hq).
  unfold proc_stdout. by rewrite Hout.
Qed.

End interior_segments.

Section after_the_build.
Context (sys : os) (kwargs : bindings).

Lemma wait_all_stderr procs w : stderr (wait_all sys procs w).2 = stderr w.
Proof.
  revert w. induction procs as [|p ps IH]; intros w; [done|].
  rewrite wait_all_cons. unfold Popen_wait.
  repeat case_match; simplify_eq; try done; by rewrite IH.
Qed.

(** After a build that completes, [sh] creates no process and prints
    nothing more. *)
Lemma sh_after_build pipeline w st w1 :
  sh_build sys kwargs pipeline w = (Ok st, w1) →
  spawned (sh sys kwargs pipeline w).2 = spawned w1
  ∧ stderr (sh sys kwargs pipeline w).2 = stderr w1.
Proof.
  intros Hrun. unfold sh, bind. rewrite Hrun.
  destruct (headpipe st || tailpipe st).
  - unfold Pipeline_init, raise, ret.
    by destruct (head (l_procs st)), (last (l_procs st)).
  - pose proof (wait_all_spawned sys (l_procs st) w1) as Hs.
    pose proof (wait_all_stderr (l_procs st) w1) as He.
    rewrite <-Hs, <-He.
    destruct (wait_all sys (l_procs st) w1) as [[[]| |] w2]; try done.
    unfold raise, bind, Popen_returncode, ret.
    by destruct (last (l_procs st)).
Qed.

(** The segments around an empty one that is neither first nor last. *)
Lemma interior_skip (before after : list string) (e : string) :
  before ≠ [] → after ≠ [] → split_ws e = [] →
  length (filter (λ c, split_ws c = []) (interior (before ++ e :: after)))
  = S (length (filter (λ c, split_ws c = []) (interior (before ++ after))))
  ∧ filter (λ c, split_ws c ≠ []) (before ++ e :: after)
    = filter (λ c, split_ws c ≠ []) (before ++ after).
Proof.
  intros Hb Ha He. split.
  - unfold interior. destruct before as [|b bs]; [done|]. simpl.
    rewrite !removelast_app by (done || by destruct after).
    destruct after as [|a rest]; [done|].
    change (removelast (e :: a :: rest)) with (e :: removelast (a :: rest)).
    rewrite !filter_app, filter_cons_True, !length_app by done.
    simpl. lia.
  - rewrite !filter_app. f_equal. rewrite filter_cons_False; [done|].
    by intros Hne.
Qed.

End after_the_build.

(** C6. Take a pipeline string with an empty segment [e] that is neither
    first nor last, on a run of [sh] in which every [Popen] call succeeds.
    [sh] creates one process per segment of the others that has words and
    none for [e]; it prints one warning to [sys.stderr] per empty segment
    that is neither first nor last, which is one more than for a string
    with the same segments but [e]; every process reads from the pipe that
    the process created before it writes to; and the call ends as it does
    for the string without [e], leaving the same processes behind. *)
Theorem sh_interior_empty_segment
    (sys : os) (kwargs : bindings) (pipeline pipeline' : string)
    (before : list string) (e : string) (after : list string) (w : world)
    (st : locals) (w1 : world) :
  split_pipe pipeline = before ++ e :: after →
  before ≠ [] → after ≠ [] → split_ws e = [] →
  split_pipe pipeline' = before ++ after →
  sh_build sys kwargs pipeline w = (Ok st, w1) →
  spawned (sh sys kwargs pipeline w).2 = spawned w ++ l_procs st
  ∧ args <$> l_procs st
    = (λ c, expandvars (split_ws c) kwargs)
        <$> filter (λ c, split_ws c ≠ []) (before ++ after)
  ∧ stderr (sh sys kwargs pipeline w).2
    = stderr w
      ++ replicate
           (length (filter (λ c, split_ws c = [])
                      (interior (split_pipe pipeline))))
           WARNING
  ∧ stderr (sh sys kwargs pipeline w).2
    = stderr (sh sys kwargs pipeline' w).2 ++ [WARNING]
  ∧ (∀ k p q,
       l_procs st !! k = Some p → l_procs st !! S k = Some q →
       stdout_arg p = PIPE ∧ stdin_arg q = File (StdoutOf (pid p)))
  ∧ same_run (sh sys kwargs pipeline w) (sh sys kwargs pipeline' w).
Proof.
  intros H1 Hb Ha He H2 Hrun.
  destruct (interior_skip before after e Hb Ha He) as [Hcount Hfilter].
  pose proof (sh_build_wiring _ _ _ _ _ _ Hrun) as [Hargs Hwire].
  destruct (sh_after_build _ _ _ _ _ _ Hrun) as [Hs He1].
  pose proof (sh_build_Ok _ _ _ _ _ _ Hrun) as Hok. cbv zeta in Hok.
  destruct Hok as (_ & Hs1 & Herr & _).
  (* the build of the other string completes as well *)
  assert (Hrun' : ∃ w1', sh_build sys kwargs pipeline' w = (Ok st, w1')).
  { pose proof (sh_loop_skip_interior sys kwargs before e after
                  (Locals [] false false) w Hb Ha
                  (proj2 (is_empty_true e) He)) as [Ho _].
    rewrite <-H1, <-H2 in Ho.
    fold (sh_build sys kwargs pipeline) in Ho.
    fold (sh_build sys kwargs pipeline') in Ho.
    rewrite Hrun in Ho. simpl in Ho.
    destruct (sh_build sys kwargs pipeline' w) as [o w1'].
    simpl in Ho. subst o. by exists w1'. }
  destruct Hrun' as [w1' Hrun'].
  destruct (sh_after_build _ _ _ _ _ _ Hrun') as [_ He1'].
  pose proof (sh_build_Ok _ _ _ _ _ _ Hrun') as Hok'. cbv zeta in Hok'.
  destruct Hok' as (_ & _ & Herr' & _).
  split; [by rewrite Hs|].
  split; [by rewrite Hargs, H1, Hfilter|].
  split; [by rewrite He1|].
  split.
  { rewrite He1, He1', Herr, Herr', H1, H2, Hcount.
    rewrite <-(assoc_L (++)). f_equal.
    by rewrite <-Nat.add_1_r, replicate_add. }
  split; [done|].
  by eapply sh_skip_interior.
Qed.

(** [sh("a || b")] against [sh("a | b")] on the example system: two
    processes, one warning. *)
Lemma sh_double_pipe_demo :
  spawned (sh demo_os ∅ "a || b" fresh_world).2
  = [Process 0 ["a"] Inherit PIPE None None;
     Process 1 ["b"] (File (StdoutOf 0)) Inherit None None]
  ∧ args <$> [Process 0 ["a"] Inherit PIPE None None;
              Process 1 ["b"] (File (StdoutOf 0)) Inherit None None]
    = [["a"]; ["b"]]
  ∧ stderr (sh demo_os ∅ "a || b" fresh_world).2 = [WARNING]
  ∧ stderr (sh demo_os ∅ "a || b" fresh_world).2
    = stderr (sh demo_os ∅ "a | b" fresh_world).2 ++ [WARNING]
  ∧ (∀ k p q,
       [Process 0 ["a"] Inherit PIPE None None;
        Process 1 ["b"] (File (StdoutOf 0)) Inherit None None] !! k
       = Some p →
       [Process 0 ["a"] Inherit PIPE None None;
        Process 1 ["b"] (File (StdoutOf 0)) Inherit None None] !! S k
       = Some q →
       stdout_arg p = PIPE ∧ stdin_arg q = File (StdoutOf (pid p)))
  ∧ same_run (sh demo_os ∅ "a || b" fresh_world)
             (sh demo_os ∅ "a | b" fresh_world).
Proof.
  apply (sh_interior_empty_segment demo_os ∅ "a || b" "a | b"
           ["a "] "" [" b"] fresh_world
           (Locals [Process 0 ["a"] Inherit PIPE None None;
                    Process 1 ["b"] (File (StdoutOf 0)) Inherit None None]
              false false)
           (World [Process 0 ["a"] Inherit PIPE None None;
                   Process 1 ["b"] (File (StdoutOf 0)) Inherit None None]
              (delete 1 (delete 0 ∅)) [WARNING] [])).
  - reflexivity.
  - discriminate.
  - discriminate.
  - reflexivity.
  - reflexivity.
  - reflexivity.
Defined.

(** The same comparison on every system. *)
Lemma sh_double_pipe (sys : os) (kwargs : bindings) (w : world) :
  same_run (sh sys kwargs "a || b" w) (sh sys kwargs "a | b" w).
Proof. by apply (sh_skip_interior sys kwargs _ _ ["a "] "" [" b"]). Qed.

(** C8. In a handle returned by [sh], [stdin] is the pipe into the first
    process exactly when the first segment is empty, and [stdout] is the
    pipe out of the last process exactly when the last segment is empty;
    otherwise the attribute is [None]. *)
Theorem sh_handle_streams
    (sys : os) (kwargs : bindings) (pipeline : string) (w : world)
    (h : Pipeline) (w' : world) :
  sh sys kwargs pipeline w = (Ok (Handle h), w') →
  ∃ first final,
    head (procs h) = Some first
    ∧ last (procs h) = Some final
    ∧ spawned w' = spawned w ++ procs h
    ∧ stdin h
      = (if head_open pipeline then Some (StdinOf (pid first)) else None)
    ∧ stdin_arg first = (if head_open pipeline then PIPE else Inherit)
    ∧ stdout h
      = (if tail_open pipeline then Some (StdoutOf (pid final)) else None)
    ∧ stdout_arg final = (if tail_open pipeline then PIPE else Inherit).
Proof.
  unfold sh, bind.
  destruct (sh_build sys kwargs pipeline w) as [[st| |] w1] eqn:Hrun;
    try by intros [=].
  pose proof (sh_build_Ok _ _ _ _ _ _ Hrun) as Hok. cbv zeta in Hok.
  destruct Hok as (Hp & Hs & _).
  destruct (headpipe st || tailpipe st).
  - unfold Pipeline_init, raise, ret.
    destruct (head (l_procs st)) as [first|] eqn:Hfirst; [|by intros [=]].
    destruct (last (l_procs st)) as [final|] eqn:Hfinal; [|by intros [=]].
    intros [= <- <-]. exists first, final. simpl.
    assert (Hin : stdin_arg first
                  = if head_open pipeline then PIPE else Inherit).
    { rewrite Hp in Hfirst. apply plan_head_stdin in Hfirst.
      rewrite Hfirst. unfold head_open. simpl.
      by destruct (split_pipe pipeline). }
    assert (Hout : stdout_arg final
                   = if tail_open pipeline then PIPE else Inherit).
    { rewrite Hp in Hfinal. by apply plan_last_stdout in Hfinal. }
    unfold proc_stdin, proc_stdout. rewrite Hin, Hout.
    repeat split; try done.
    + by destruct (head_open pipeline).
    + by destruct (tail_open pipeline).
  - destruct (wait_all sys (l_procs st) w1) as [[[]| |] w2];
      try by intros [=].
    unfold raise, bind, Popen_returncode, ret.
    by destruct (last (l_procs st)); intros [=].
Qed.

(** [sh("| sort | ")] on the example system: both streams are there. *)
Lemma sh_sort_handle :
  sh demo_os ∅ "| sort | " fresh_world
  = (Ok (Handle (MkPipeline [Process 0 ["sort"] PIPE PIPE None None]
                   (Some (StdinOf 0)) (Some (StdoutOf 0)))),
     World [Process 0 ["sort"] PIPE PIPE None None] (delete 0 ∅) [] [])
  ∧ ∃ first final,
      head [Process 0 ["sort"] PIPE PIPE None None] = Some first
      ∧ last [Process 0 ["sort"] PIPE PIPE None None] = Some final
      ∧ Some (StdinOf 0) = Some (StdinOf (pid first))
      ∧ Some (StdoutOf 0) = Some (StdoutOf (pid final)).
Proof.
  assert (Hrun : sh demo_os ∅ "| sort | " fresh_world
                 = (Ok (Handle (MkPipeline
                                  [Process 0 ["sort"] PIPE PIPE None None]
                                  (Some (StdinOf 0)) (Some (StdoutOf 0)))),
                    World [Process 0 ["sort"] PIPE PIPE None None]
                      (delete 0 ∅) [] [])) by reflexivity.
  split; [exact Hrun|].
  destruct (sh_handle_streams _ _ _ _ _ _ Hrun)
    as (first & final & Hfirst & Hfinal & _ & Hin & _ & Hout & _).
  exists first, final. repeat split; [exact Hfirst | exact Hfinal | |].
  - exact Hin.
  - exact Hout.
Defined.

(** ** The claims about Pipeline *)

(** C9. Reading [ok] a second time, after a first read that returned, gives
    the same boolean and does not raise; every process already has its
    [returncode], so nothing is waited for or reaped again and the world is
    left as it was. *)
Theorem ok_twice (sys : os) (self : Pipeline) (w : world) (b : bool)
    (w1 : world) :
  ok sys self w = (Ok b, w1) →
  ok sys self w1 = (Ok b, w1).
Proof.
  unfold ok, wait, bind.
  destruct (wait_all sys (procs self) w) as [[u| |] w0] eqn:Hwait;
    try by intros [=].
  apply wait_all_Ok in Hwait as [_ Hall].
  unfold returncode, raise, Popen_returncode, ret.
  destruct (last (procs self)) as [final|]; [|by intros [=]].
  intros [= <- <-]. by rewrite (wait_all_done sys _ _ Hall).
Qed.

(** A handle on one [true] process of the example system: [ok] is [True],
    twice. *)
Lemma ok_twice_true :
  ∃ w1, ok demo_os (MkPipeline [Process 0 ["true"] PIPE Inherit None None]
                      (Some (StdinOf 0)) None)
          (World [Process 0 ["true"] PIPE Inherit None None] ∅ [] [])
        = (Ok true, w1)
    ∧ ok demo_os (MkPipeline [Process 0 ["true"] PIPE Inherit None None]
                    (Some (StdinOf 0)) None) w1
      = (Ok true, w1).
Proof.
  eexists. split; [reflexivity|].
  by apply (ok_twice demo_os _
              (World [Process 0 ["true"] PIPE Inherit None None] ∅ [] [])).
Defined.

(** The first read of [ok] returns as soon as there is a process and every
    process exits or has exited. *)
Lemma ok_returns (sys : os) (self : Pipeline) (w : world) :
  procs self ≠ [] →
  Forall (λ p, is_Some (returncodes w !! pid p) ∨ is_Some (os_exit sys p))
    (procs self) →
  ∃ b w1, ok sys self w = (Ok b, w1).
Proof.
  intros Hne Hall. unfold ok, wait, bind.
  assert (Hwait : ∃ w0, wait_all sys (procs self) w = (Ok tt, w0)).
  { clear Hne. revert w Hall.
    induction (procs self) as [|p ps IH]; intros w Hall; [by exists w|].
    apply Forall_cons in Hall as [Hp Hall].
    rewrite wait_all_cons. unfold Popen_wait.
    destruct (returncodes w !! pid p) as [rc|] eqn:Hrc; [by apply IH|].
    destruct Hp as [[? ?]|[rc Hex]]; [done|]. rewrite Hex.
    apply IH. eapply Forall_impl; [exact Hall|]. intros q [Hq|Hq]; [|by right].
    simpl. destruct (decide (pid p = pid q)) as [->|Hpq].
    - left. rewrite lookup_insert_eq. by eexists.
    - left. by rewrite lookup_insert_ne. }
  destruct Hwait as [w0 ->]. unfold returncode.
  destruct (last (procs self)) eqn:Hlast; [|by apply last_None in Hlast].
  unfold Popen_returncode, ret. by eexists _, _.
Qed.

(** * Further properties *)

(** ** More on expandvars *)

Section expander_words.
Context (kwargs : bindings).

Lemma expand_word_literal word :
  variable_of word = None → expand_word kwargs word = [word].
Proof.
  unfold variable_of, expand_word. destruct word as [|c name]; [done|].
  destruct (decide (c = "$"%char)) as [->|Hc]; [done|].
  by destruct c as [[] [] [] [] [] [] [] []].
Qed.

Lemma expand_word_variable word name :
  variable_of word = Some name →
  expand_word kwargs word = substitute (kwargs !! name).
Proof.
  unfold variable_of, expand_word. destruct word as [|c rest]; [done|].
  destruct (decide (c = "$"%char)) as [->|Hc]; [by intros [= ->]|].
  by destruct c as [[] [] [] [] [] [] [] []].
Qed.

End expander_words.

(** X1. Expanding a concatenation of word lists is the concatenation of
    the expansions: a word is expanded on its own, whatever stands before or
    after it. *)
Theorem expandvars_distributes (ws1 ws2 : list string) (kwargs : bindings) :
  expandvars (ws1 ++ ws2) kwargs
  = expandvars ws1 kwargs ++ expandvars ws2 kwargs.
Proof. by rewrite !expandvars_unfold, fmap_app, concat_app. Qed.

(** X2. Words that do not start with a dollar sign are returned as they
    are, whatever the bindings: a dollar sign inside a word means
    nothing. *)
Theorem expandvars_literal_words (words : list string) (kwargs : bindings) :
  Forall (λ word, variable_of word = None) words →
  expandvars words kwargs = words.
Proof.
  intros Hall. rewrite expandvars_unfold.
  induction Hall as [|word rest Hword _ IH]; [done|].
  rewrite fmap_cons. simpl. by rewrite IH, expand_word_literal.
Qed.

Lemma expandvars_literal_words_demo :
  expandvars ["grep"; "-c"; "a$b"; ""] {["b" := VStr "x"]}
  = ["grep"; "-c"; "a$b"; ""].
Proof.
  apply (expandvars_literal_words ["grep"; "-c"; "a$b"; ""]).
  repeat constructor.
Defined.

(** X3. When no word refers to a name bound to a sequence or a mapping,
    the output has exactly one word per input word: every argument keeps
    its position. *)
Theorem expandvars_length (words : list string) (kwargs : bindings) :
  Forall (λ word, ∀ name, variable_of word = Some name →
            match kwargs !! name with
            | Some (VSeq _) | Some (VMap _) => False
            | _ => True
            end) words →
  length (expandvars words kwargs) = length words.
Proof.
  intros Hall. rewrite expandvars_unfold.
  induction Hall as [|word rest Hword _ IH]; [done|].
  rewrite fmap_cons. simpl. rewrite length_app, IH. f_equal.
  destruct (variable_of word) as [name|] eqn:Hvar.
  - rewrite (expand_word_variable _ _ _ Hvar). specialize (Hword name eq_refl).
    by destruct (kwargs !! name) as [[s|l|m]|].
  - by rewrite expand_word_literal.
Qed.

Lemma expandvars_length_demo :
  length (expandvars ["cp"; "$src"; "$dst"] {["src" := VStr "a b"]}) = 3.
Proof.
  apply (expandvars_length ["cp"; "$src"; "$dst"] {["src" := VStr "a b"]}).
  repeat constructor; intros name [= <-]; exact I.
Defined.

Lemma expandvars_ext (words : list string) (kwargs kwargs' : bindings) :
  Forall (λ word, ∀ name, variable_of word = Some name →
            kwargs !! name = kwargs' !! name) words →
  expandvars words kwargs = expandvars words kwargs'.
Proof.
  intros Hall. rewrite !expandvars_unfold.
  induction Hall as [|word rest Hword _ IH]; [done|].
  rewrite !fmap_cons. simpl. rewrite IH. f_equal.
  destruct (variable_of word) as [name|] eqn:Hvar.
  - by rewrite !(expand_word_variable _ _ _ Hvar), (Hword name eq_refl).
  - by rewrite !expand_word_literal.
Qed.

(** X4. The output depends on the bindings of the names the words refer to
    and on nothing else: two maps that agree on those names give the same
    expansion. *)
Theorem expandvars_agree (words : list string) (kwargs kwargs' : bindings) :
  Forall (λ word, ∀ name, variable_of word = Some name →
            kwargs !! name = kwargs' !! name) words →
  expandvars words kwargs = expandvars words kwargs'.
Proof.
  intros Hall. rewrite !expandvars_unfold. f_equal.
  apply list_eq_Forall2, Forall2_fmap, Forall_Forall2_diag.
  eapply Forall_impl; [exact Hall|]. intros word Hword.
  destruct (variable_of word) as [name|] eqn:Hvar.
  - by rewrite !(expand_word_variable _ _ _ Hvar), (Hword name Hvar).
  - by rewrite !expand_word_literal.
Qed.

Lemma expandvars_agree_demo :
  expandvars ["echo"; "$msg"] {["msg" := VStr "hi"]}
  = expandvars ["echo"; "$msg"]
      (<["_cwd" := VStr "/srv"]> {["msg" := VStr "hi"]}).
Proof.
  apply (expandvars_agree ["echo"; "$msg"]).
  repeat constructor; intros name [= <-]; reflexivity.
Defined.

(** ** Whatever way the loop ends *)

Section any_outcome.
Context (sys : os) (kwargs : bindings).

(** One iteration returns or raises what [Popen] raises; it never blocks.
    It reaps nothing, prints at most its warning, only adds to the process
    table and leaves the [returncode] of every older process alone. *)
Lemma sh_body_any n i command st w :
  match (sh_body sys kwargs n i command st w).1 with
  | Ok _ | Raise _ => True
  | Blocked => False
  end
  ∧ reaped (sh_body sys kwargs n i command st w).2 = reaped w
  ∧ (∃ k : nat, (k ≤ warnings n i [command])%nat
       ∧ stderr (sh_body sys kwargs n i command st w).2
         = stderr w ++ replicate k WARNING)
  ∧ (∃ new, spawned (sh_body sys kwargs n i command st w).2
            = spawned w ++ new)
  ∧ ∀ k, k < length (spawned w) →
      returncodes (sh_body sys kwargs n i command st w).2 !! k
      = returncodes w !! k.
Proof.
  destruct (is_empty command) eqn:He.
  - rewrite sh_body_empty by done. simpl. repeat split; try done.
    + eexists. split; [|reflexivity]. cbn [warnings]. lia.
    + exists []. by rewrite app_nil_r.
  - pose proof He as He'. apply is_empty_false in He'.
    unfold sh_body. rewrite bool_decide_eq_false_2
      by (destruct (split_ws command); [done | simpl; lia]).
    unfold bind, Popen.
    destruct (expandvars (split_ws command) kwargs) as [|a argv].
    { simpl. repeat split; try done.
      - exists 0. simpl. rewrite app_nil_r. split; [lia | done].
      - exists []. by rewrite app_nil_r. }
    destruct (os_can_spawn sys _ _); simpl.
    + repeat split; try done.
      * exists 0. simpl. rewrite app_nil_r. split; [lia | done].
      * by eexists.
      * intros k Hk. rewrite lookup_delete_ne; [done | lia].
    + repeat split; try done.
      * exists 0. simpl. rewrite app_nil_r. split; [lia | done].
      * exists []. by rewrite app_nil_r.
Qed.

Lemma sh_loop_any n i commands st w :
  match (sh_loop sys kwargs n i commands st w).1 with
  | Ok _ | Raise _ => True
  | Blocked => False
  end
  ∧ reaped (sh_loop sys kwargs n i commands st w).2 = reaped w
  ∧ (∃ k : nat, (k ≤ warnings n i commands)%nat
       ∧ stderr (sh_loop sys kwargs n i commands st w).2
         = stderr w ++ replicate k WARNING)
  ∧ (∃ new, spawned (sh_loop sys kwargs n i commands st w).2
            = spawned w ++ new)
  ∧ ∀ k, k < length (spawned w) →
      returncodes (sh_loop sys kwargs n i commands st w).2 !! k
      = returncodes w !! k.
Proof.
  revert i st w. induction commands as [|c rest IH]; intros i st w.
  - simpl. repeat split; try done.
    + exists 0. simpl. by rewrite app_nil_r.
    + exists []. by rewrite app_nil_r.
  - rewrite sh_loop_cons.
    destruct (sh_body_any n i c st w)
      as (Ho & Hr & (k1 & Hk1 & He) & (new1 & Hs) & Hrc).
    destruct (sh_body sys kwargs n i c st w) as [[st1|e|] w1];
      simpl in Ho, Hr, He, Hs, Hrc; [| |done].
    + destruct (IH (S i) st1 w1)
        as (Ho2 & Hr2 & (k2 & Hk2 & He2) & (new2 & Hs2) & Hrc2).
      split; [done|]. split; [congruence|]. split; [|split].
      * exists (k1 + k2). split.
        { cbn [warnings] in *. lia. }
        by rewrite He2, He, <-(assoc_L (++)), <-replicate_add.
      * exists (new1 ++ new2). by rewrite Hs2, Hs, <-(assoc_L (++)).
      * intros k Hk. rewrite Hrc2, Hrc; [done | done |].
        rewrite Hs, length_app. lia.
    + simpl. split; [done|]. split; [done|]. split; [|split].
      * exists k1. split; [|done]. cbn [warnings] in *. lia.
      * by exists new1.
      * done.
Qed.

(** Waiting returns or blocks; it never raises. It prints nothing, creates
    nothing, and touches the processes it is given and no other. *)
Lemma wait_all_any procs w :
  match (wait_all sys procs w).1 with
  | Ok _ | Blocked => True
  | _ => False
  end
  ∧ spawned (wait_all sys procs w).2 = spawned w
  ∧ stderr (wait_all sys procs w).2 = stderr w
  ∧ (∀ k, k ∉ pid <$> procs →
       returncodes (wait_all sys procs w).2 !! k = returncodes w !! k)
  ∧ ∃ l, reaped (wait_all sys procs w).2 = reaped w ++ l
      ∧ Forall (λ k, k ∈ pid <$> procs) l.
Proof.
  revert w. induction procs as [|p ps IH]; intros w.
  - simpl. repeat split; try done. exists []. by rewrite app_nil_r.
  - rewrite wait_all_cons. unfold Popen_wait.
    destruct (returncodes w !! pid p) as [rc|] eqn:Hrc.
    + destruct (IH w) as (Ho & Hs & He & Hrcs & (l & Hl & Hsub)).
      repeat split; try done.
      * intros k Hk. apply Hrcs. rewrite fmap_cons in Hk.
        by apply not_elem_of_cons in Hk as [_ ?].
      * exists l. split; [done|]. rewrite fmap_cons.
        eapply Forall_impl; [exact Hsub|]. intros k Hk. by right.
    + destruct (os_exit sys p) as [rc|].
      * set (w1 := World _ _ _ _).
        destruct (IH w1) as (Ho & Hs & He & Hrcs & (l & Hl & Hsub)).
        repeat split; try done.
        { intros k Hk. rewrite fmap_cons in Hk.
          apply not_elem_of_cons in Hk as [Hkp Hk].
          rewrite Hrcs by done. simpl. by rewrite lookup_insert_ne. }
        exists (pid p :: l). split.
        { rewrite Hl. simpl. by rewrite <-(assoc_L (++)). }
        rewrite fmap_cons. constructor; [by left|].
        eapply Forall_impl; [exact Hsub|]. intros k Hk. by right.
      * simpl. repeat split; try done. exists [].
        by rewrite app_nil_r.
Qed.

(** The flags after a complete build say what was requested. *)
Lemma sh_build_flags pipeline w st w' :
  sh_build sys kwargs pipeline w = (Ok st, w') →
  headpipe st || tailpipe st = head_open pipeline || tail_open pipeline.
Proof.
  intros Hrun. apply sh_build_Ok in Hrun. cbv zeta in Hrun.
  destruct Hrun as (_ & _ & _ & _ & _ & -> & ->).
  case_bool_decide as Hlen; simpl; [|done].
  unfold head_open, tail_open.
  destruct (split_pipe pipeline) as [|c [|c' rest]]; simpl in *;
    [done | | lia].
  by rewrite orb_false_r, orb_diag.
Qed.

End any_outcome.

(** ** More on sh *)

Lemma split_on_single sep s piece : split_on sep s = [piece] → piece = s.
Proof.
  revert piece. induction s as [|c rest IH]; intros piece; simpl.
  - by intros [= <-].
  - destruct (Ascii.eqb c sep).
    + intros [= _ Hrest]. by apply split_on_nonempty in Hrest.
    + destruct (split_on sep rest) as [|p ps] eqn:Hsplit;
        [by apply split_on_nonempty in Hsplit|].
      intros [= <- ->]. by rewrite (IH p eq_refl).
Qed.

(** X5. A build that completes has created exactly one process per segment
    that has words, in the order of the segments, with the expansion of the
    segment's words as argument vector and consecutive process ids. *)
Theorem sh_one_process_per_command
    (sys : os) (kwargs : bindings) (pipeline : string) (w : world)
    (st : locals) (w' : world) :
  sh_build sys kwargs pipeline w = (Ok st, w') →
  spawned w' = spawned w ++ l_procs st
  ∧ args <$> l_procs st
    = (λ c, expandvars (split_ws c) kwargs)
        <$> filter (λ c, split_ws c ≠ []) (split_pipe pipeline)
  ∧ pid <$> l_procs st = seq (length (spawned w)) (length (l_procs st)).
Proof.
  intros Hrun. apply sh_build_Ok in Hrun. cbv zeta in Hrun.
  destruct Hrun as (Hp & Hs & _). split; [done|]. rewrite Hp.
  split; [apply plan_args | apply plan_pids].
Qed.

Lemma sh_one_process_per_command_demo :
  spawned (World [Process 0 ["grep"; "-c"; "x"] Inherit PIPE None None;
                  Process 1 ["sort"] (File (StdoutOf 0)) Inherit None None]
             (delete 1 (delete 0 ∅)) [] [])
  = spawned fresh_world
    ++ [Process 0 ["grep"; "-c"; "x"] Inherit PIPE None None;
        Process 1 ["sort"] (File (StdoutOf 0)) Inherit None None]
  ∧ args <$> [Process 0 ["grep"; "-c"; "x"] Inherit PIPE None None;
              Process 1 ["sort"] (File (StdoutOf 0)) Inherit None None]
    = (λ c, expandvars (split_ws c) {["pat" := VStr "x"]})
        <$> filter (λ c, split_ws c ≠ []) (split_pipe "grep -c $pat | sort")
  ∧ pid <$> [Process 0 ["grep"; "-c"; "x"] Inherit PIPE None None;
             Process 1 ["sort"] (File (StdoutOf 0)) Inherit None None]
    = seq (length (spawned fresh_world)) 2.
Proof.
  apply (sh_one_process_per_command demo_os {["pat" := VStr "x"]}
           "grep -c $pat | sort" fresh_world
           (Locals [Process 0 ["grep"; "-c"; "x"] Inherit PIPE None None;
                    Process 1 ["sort"] (File (StdoutOf 0)) Inherit None None]
              false false)).
  reflexivity.
Defined.

(** X6. The stream wiring of a completed build. The first process reads
    from a pipe held by the caller when the first segment is empty and from
    the caller's standard input otherwise; the last process writes to a
    pipe held by the caller when the last segment is empty and to the
    caller's standard output otherwise; every other process reads the pipe
    that the process created just before it writes to. *)
Theorem sh_wiring
    (sys : os) (kwargs : bindings) (pipeline : string) (w : world)
    (st : locals) (w' : world) :
  sh_build sys kwargs pipeline w = (Ok st, w') →
  (∀ first, head (l_procs st) = Some first →
     stdin_arg first = if head_open pipeline then PIPE else Inherit)
  ∧ (∀ final, last (l_procs st) = Some final →
       stdout_arg final = if tail_open pipeline then PIPE else Inherit)
  ∧ ∀ k p q,
      l_procs st !! k = Some p → l_procs st !! S k = Some q →
      stdout_arg p = PIPE ∧ stdin_arg q = File (StdoutOf (pid p)).
Proof.
  intros Hrun.
  pose proof (sh_build_wiring _ _ _ _ _ _ Hrun) as [_ Hwire].
  apply sh_build_Ok in Hrun. cbv zeta in Hrun. destruct Hrun as (Hp & _).
  split; [|split; [|done]].
  - intros first Hfirst. rewrite Hp in Hfirst.
    apply plan_head_stdin in Hfirst. rewrite Hfirst. simpl.
    unfold head_open. by destruct (split_pipe pipeline).
  - intros final Hfinal. rewrite Hp in Hfinal.
    by apply plan_last_stdout in Hfinal.
Qed.

(** [sh("| grep x | sort")]: the caller writes to [grep], [sort] reads
    [grep] and writes to the caller's standard output. *)
Lemma sh_wiring_demo :
  (∀ first,
     head [Process 0 ["grep"; "x"] PIPE PIPE None None;
           Process 1 ["sort"] (File (StdoutOf 0)) Inherit None None]
     = Some first →
     stdin_arg first = if head_open "| grep x | sort" then PIPE else Inherit)
  ∧ (∀ final,
       last [Process 0 ["grep"; "x"] PIPE PIPE None None;
             Process 1 ["sort"] (File (StdoutOf 0)) Inherit None None]
       = Some final →
       stdout_arg final
       = if tail_open "| grep x | sort" then PIPE else Inherit)
  ∧ ∀ k p q,
      [Process 0 ["grep"; "x"] PIPE PIPE None None;
       Process 1 ["sort"] (File (StdoutOf 0)) Inherit None None] !! k
      = Some p →
      [Process 0 ["grep"; "x"] PIPE PIPE None None;
       Process 1 ["sort"] (File (StdoutOf 0)) Inherit None None] !! S k
      = Some q →
      stdout_arg p = PIPE ∧ stdin_arg q = File (StdoutOf (pid p)).
Proof.
  apply (sh_wiring demo_os ∅ "| grep x | sort" fresh_world
           (Locals [Process 0 ["grep"; "x"] PIPE PIPE None None;
                    Process 1 ["sort"] (File (StdoutOf 0)) Inherit None None]
              true false)
           (World [Process 0 ["grep"; "x"] PIPE PIPE None None;
                   Process 1 ["sort"] (File (StdoutOf 0)) Inherit None None]
              (delete 1 (delete 0 ∅)) [] [])).
  reflexivity.
Defined.

(** X7. A pipeline string without a pipe character and with at least one
    word is one command: [sh] creates one process that inherits both
    streams, waits for it and returns its exit status, and prints
    nothing. *)
Theorem sh_single_command
    (sys : os) (kwargs : bindings) (pipeline : string) (w : world) (rc : Z) :
  length (split_pipe pipeline) = 1 →
  split_ws pipeline ≠ [] →
  expandvars (split_ws pipeline) kwargs ≠ [] →
  os_can_spawn sys (spawned w)
    (Process (length (spawned w)) (expandvars (split_ws pipeline) kwargs)
       Inherit Inherit (kwargs !! "_cwd") (kwargs !! "_env")) = true →
  os_exit sys
    (Process (length (spawned w)) (expandvars (split_ws pipeline) kwargs)
       Inherit Inherit (kwargs !! "_cwd") (kwargs !! "_env")) = Some rc →
  ∃ w', sh sys kwargs pipeline w = (Ok (ExitCode (Some rc)), w')
    ∧ spawned w'
      = spawned w
        ++ [Process (length (spawned w))
              (expandvars (split_ws pipeline) kwargs)
              Inherit Inherit (kwargs !! "_cwd") (kwargs !! "_env")]
    ∧ reaped w' = reaped w ++ [length (spawned w)]
    ∧ stderr w' = stderr w.
Proof.
  intros Hlen Hwords Hargv Hspawn Hexit.
  assert (Hsplit : split_pipe pipeline = [pipeline]).
  { destruct (split_pipe pipeline) as [|c [|c' rest]] eqn:Hs;
      simpl in Hlen; try lia.
    by rewrite (split_on_single _ _ _ Hs). }
  unfold sh, sh_build. rewrite Hsplit. simpl.
  unfold bind at 1 2. unfold sh_body.
  rewrite bool_decide_eq_false_2
    by (destruct (split_ws pipeline); [done | simpl; lia]).
  simpl. unfold bind at 1. unfold Popen.
  destruct (expandvars (split_ws pipeline) kwargs) as [|a argv] eqn:Hexp;
    [done|].
  rewrite Hspawn. simpl. unfold bind.
  rewrite wait_all_cons. unfold Popen_wait. simpl.
  rewrite lookup_delete_eq, Hexit. simpl.
  rewrite lookup_insert_eq. unfold ret. by eexists.
Qed.

Lemma sh_single_command_demo :
  ∃ w', sh demo_os {["msg" := VStr "hi"]} "echo $msg" fresh_world
        = (Ok (ExitCode (Some 0%Z)), w')
    ∧ spawned w' = [Process 0 ["echo"; "hi"] Inherit Inherit None None]
    ∧ reaped w' = [0]
    ∧ stderr w' = [].
Proof.
  destruct (sh_single_command demo_os {["msg" := VStr "hi"]} "echo $msg"
              fresh_world 0%Z) as (w' & Hrun & Hs & Hr & He).
  - reflexivity.
  - discriminate.
  - discriminate.
  - reflexivity.
  - reflexivity.
  - exists w'. split; [exact Hrun|]. split; [exact Hs|].
    split; [exact Hr | exact He].
Defined.

Section failures.
Context (sys : os) (kwargs : bindings).

(** A command that has words, none of which survives the expansion, is
    handed to [Popen] with an empty argument vector. *)
Lemma sh_body_empty_expansion n i command st w :
  split_ws command ≠ [] →
  expandvars (split_ws command) kwargs = [] →
  sh_body sys kwargs n i command st w = (Raise IndexError, w).
Proof.
  intros Hwords Hexp. unfold sh_body.
  rewrite bool_decide_eq_false_2
    by (destruct (split_ws command); [done | simpl; lia]).
  unfold bind, Popen. by rewrite Hexp.
Qed.

(** What makes one iteration raise: the command has words, and either
    their expansion is empty or the system refuses the request. *)
Lemma sh_body_raise n i command st w e w' :
  sh_body sys kwargs n i command st w = (Raise e, w') →
  split_ws command ≠ []
  ∧ ((e = IndexError ∧ expandvars (split_ws command) kwargs = [])
     ∨ (e = SpawnError
        ∧ ∃ proc, args proc ≠ []
            ∧ os_can_spawn sys (spawned w) proc = false)).
Proof.
  intros Hb. destruct (is_empty command) eqn:He.
  - by rewrite sh_body_empty in Hb.
  - apply is_empty_false in He. split; [done|]. revert Hb.
    unfold sh_body. rewrite bool_decide_eq_false_2
      by (destruct (split_ws command); [done | simpl; lia]).
    unfold bind, Popen.
    destruct (expandvars (split_ws command) kwargs) as [|a argv];
      [intros [= <- <-]; by left|].
    destruct (os_can_spawn sys _ _) eqn:Hspawn; [by intros [=]|].
    intros [= <- <-]. right. split; [done|].
    eexists. split; [|exact Hspawn]. done.
Qed.

Lemma sh_loop_empty_expansion n i commands command st w :
  command ∈ commands →
  split_ws command ≠ [] →
  expandvars (split_ws command) kwargs = [] →
  ∃ e w', sh_loop sys kwargs n i commands st w = (Raise e, w')
    ∧ ((∀ table p, args p ≠ [] → os_can_spawn sys table p = true) →
       e = IndexError).
Proof.
  intros Hin Hwords Hexp. revert i st w.
  induction commands as [|c rest IH]; intros i st w.
  - by apply elem_of_nil in Hin.
  - rewrite sh_loop_cons.
    destruct (decide (c = command)) as [->|Hne].
    + rewrite sh_body_empty_expansion by done. by eexists _, _.
    + apply elem_of_cons in Hin as [->|Hin]; [done|].
      destruct (sh_body_any sys kwargs n i c st w) as (Ho & _).
      destruct (sh_body sys kwargs n i c st w) as [[st1|e|] w1] eqn:Hb;
        simpl in Ho; try done.
      * by apply IH.
      * exists e, w1. split; [done|]. intros Hsys.
        apply sh_body_raise in Hb as (_ & [[-> _]|(_ & proc & Hargs & Hno)]);
          [done|].
        by rewrite Hsys in Hno.
Qed.

(** [IndexError] out of the loop comes from an empty argument vector. *)
Lemma sh_loop_index_error n i commands st w w' :
  sh_loop sys kwargs n i commands st w = (Raise IndexError, w') →
  Exists (λ c, split_ws c ≠ [] ∧ expandvars (split_ws c) kwargs = [])
    commands.
Proof.
  revert i st w. induction commands as [|c rest IH]; intros i st w.
  - by intros [=].
  - rewrite sh_loop_cons.
    destruct (sh_body sys kwargs n i c st w) as [[st1|e|] w1] eqn:Hb;
      [| |by intros [=]].
    + intros Hrun. right. by eapply IH.
    + intros [= -> <-]. left.
      by apply sh_body_raise in Hb as (? & [[_ ?]|[? _]]).
Qed.

End failures.

(** X8. Whether a segment is empty is decided before its words are
    expanded. A segment that has words which all expand to nothing (a
    variable bound to the empty sequence) is not an empty segment: [Popen]
    is called with an empty argument vector, and [sh] raises what [Popen]
    raises, which is [IndexError] unless the system has refused an earlier
    request. *)
Theorem sh_empty_expansion_raises
    (sys : os) (kwargs : bindings) (pipeline command : string) (w : world) :
  command ∈ split_pipe pipeline →
  split_ws command ≠ [] →
  expandvars (split_ws command) kwargs = [] →
  ∃ e w', sh sys kwargs pipeline w = (Raise e, w')
    ∧ ((∀ table p, args p ≠ [] → os_can_spawn sys table p = true) →
       e = IndexError).
Proof.
  intros Hin Hwords Hexp. unfold sh, sh_build, bind.
  destruct (sh_loop_empty_expansion sys kwargs
              (length (split_pipe pipeline)) 0 (split_pipe pipeline) command
              (Locals [] false false) w Hin Hwords Hexp)
    as (e & w' & -> & He).
  by exists e, w'.
Qed.

Lemma sh_empty_expansion_raises_demo :
  ∃ e w', sh demo_os {["opts" := VSeq []]} "$opts | sort" fresh_world
          = (Raise e, w')
    ∧ ((∀ table p, args p ≠ [] → os_can_spawn demo_os table p = true) →
       e = IndexError).
Proof.
  apply (sh_empty_expansion_raises demo_os {["opts" := VSeq []]}
           "$opts | sort" "$opts " fresh_world).
  - by left.
  - discriminate.
  - reflexivity.
Defined.

(** X9. When the first or the last segment is empty, [sh] never blocks: it
    returns the handle or raises, without waiting for any process. *)
Theorem sh_streaming_never_blocks
    (sys : os) (kwargs : bindings) (pipeline : string) (w : world) :
  head_open pipeline || tail_open pipeline = true →
  (sh sys kwargs pipeline w).1 ≠ Blocked
  ∧ reaped (sh sys kwargs pipeline w).2 = reaped w.
Proof.
  intros Hreq. unfold sh, bind.
  destruct (sh_loop_any sys kwargs (length (split_pipe pipeline)) 0
              (split_pipe pipeline) (Locals [] false false) w)
    as (Ho & Hr & _).
  fold (sh_build sys kwargs pipeline) in Ho, Hr.
  destruct (sh_build sys kwargs pipeline w) as [[st|e|] w1] eqn:Hrun;
    simpl in Ho, Hr; [| done | done].
  rewrite (sh_build_flags _ _ _ _ _ _ Hrun), Hreq.
  unfold Pipeline_init, raise, ret.
  by destruct (head (l_procs st)), (last (l_procs st)).
Qed.

Lemma sh_streaming_never_blocks_demo :
  (sh demo_os ∅ "| sort | " fresh_world).1 ≠ Blocked
  ∧ reaped (sh demo_os ∅ "| sort | " fresh_world).2 = reaped fresh_world.
Proof.
  apply (sh_streaming_never_blocks demo_os ∅ "| sort | " fresh_world).
  reflexivity.
Defined.

(** X10. A handle is returned before anything is waited for: no process has
    been reaped, none of the handle's processes has a [returncode], and
    reading the handle's [returncode] gives [None]. *)
Theorem sh_handle_not_waited
    (sys : os) (kwargs : bindings) (pipeline : string) (w : world)
    (h : Pipeline) (w' : world) :
  sh sys kwargs pipeline w = (Ok (Handle h), w') →
  reaped w' = reaped w
  ∧ Forall (λ p, returncodes w' !! pid p = None) (procs h)
  ∧ returncode h w' = (Ok None, w').
Proof.
  unfold sh, bind.
  destruct (sh_build sys kwargs pipeline w) as [[st| |] w1] eqn:Hrun;
    try by intros [=].
  pose proof (sh_build_Ok _ _ _ _ _ _ Hrun) as Hok. cbv zeta in Hok.
  destruct Hok as (_ & _ & _ & Hr & Hrc & _).
  destruct (headpipe st || tailpipe st).
  - unfold Pipeline_init, raise, ret.
    destruct (head (l_procs st)) as [first|]; [|by intros [=]].
    destruct (last (l_procs st)) as [final|] eqn:Hfinal; [|by intros [=]].
    intros [= <- <-]. simpl. split; [done|]. split.
    + by apply Forall_forall.
    + unfold returncode, Popen_returncode. simpl. rewrite Hfinal.
      by rewrite (Hrc final (last_Some_elem_of _ _ Hfinal)).
  - destruct (wait_all sys (l_procs st) w1) as [[[]| |] w2];
      try by intros [=].
    unfold raise, bind, Popen_returncode, ret.
    by destruct (last (l_procs st)); intros [=].
Qed.

Lemma sh_handle_not_waited_demo :
  reaped (World [Process 0 ["sort"] PIPE PIPE None None] (delete 0 ∅) [] [])
  = reaped fresh_world
  ∧ Forall (λ p, returncodes
                   (World [Process 0 ["sort"] PIPE PIPE None None]
                      (delete 0 ∅) [] []) !! pid p = None)
      (procs (MkPipeline [Process 0 ["sort"] PIPE PIPE None None]
                (Some (StdinOf 0)) (Some (StdoutOf 0))))
  ∧ returncode (MkPipeline [Process 0 ["sort"] PIPE PIPE None None]
                  (Some (StdinOf 0)) (Some (StdoutOf 0)))
      (World [Process 0 ["sort"] PIPE PIPE None None] (delete 0 ∅) [] [])
    = (Ok None,
       World [Process 0 ["sort"] PIPE PIPE None None] (delete 0 ∅) [] []).
Proof.
  apply (sh_handle_not_waited demo_os ∅ "| sort | " fresh_world).
  reflexivity.
Defined.

Section fresh_processes.
Context (sys : os) (kwargs : bindings).

(** Whatever way one iteration ends, the processes it added have
    consecutive ids and no [returncode], and no [returncode] appears. *)
Lemma sh_body_fresh n i command st w :
  ∃ new,
    spawned (sh_body sys kwargs n i command st w).2 = spawned w ++ new
    ∧ pid <$> new = seq (length (spawned w)) (length new)
    ∧ ∀ k : nat, returncodes w !! k = None ∨ (length (spawned w) ≤ k)%nat →
        returncodes (sh_body sys kwargs n i command st w).2 !! k = None
        ∨ (length (spawned (sh_body sys kwargs n i command st w).2) ≤ k)%nat.
Proof.
  destruct (is_empty command) eqn:He.
  - rewrite sh_body_empty by done. simpl. exists [].
    rewrite app_nil_r. split; [done|]. split; [done|]. tauto.
  - unfold sh_body. apply is_empty_false in He.
    rewrite bool_decide_eq_false_2
      by (destruct (split_ws command); [done | simpl; lia]).
    unfold bind, Popen.
    destruct (expandvars (split_ws command) kwargs) as [|a argv].
    { simpl. exists []. rewrite app_nil_r. split; [done|]. split; [done|].
      tauto. }
    destruct (os_can_spawn sys _ _); simpl.
    + eexists. split; [done|]. split; [done|]. intros k Hk.
      rewrite length_app. simpl.
      destruct (decide (k = length (spawned w))) as [->|Hne].
      * left. apply lookup_delete_eq.
      * rewrite lookup_delete_ne by done.
        destruct Hk as [Hk|Hk]; [by left | right; lia].
    + exists []. rewrite app_nil_r. split; [done|]. split; [done|]. tauto.
Qed.

Lemma sh_loop_fresh n i commands st w :
  ∃ new,
    spawned (sh_loop sys kwargs n i commands st w).2 = spawned w ++ new
    ∧ pid <$> new = seq (length (spawned w)) (length new)
    ∧ ∀ k : nat, returncodes w !! k = None ∨ (length (spawned w) ≤ k)%nat →
        returncodes (sh_loop sys kwargs n i commands st w).2 !! k = None
        ∨ (length (spawned (sh_loop sys kwargs n i commands st w).2) ≤ k)%nat.
Proof.
  revert i st w. induction commands as [|c rest IH]; intros i st w.
  - simpl. exists []. rewrite app_nil_r. split; [done|]. split; [done|]. tauto.
  - rewrite sh_loop_cons.
    destruct (sh_body_fresh n i c st w) as (new1 & Hs1 & Hp1 & Hrc1).
    destruct (sh_body sys kwargs n i c st w) as [[st1|e|] w1];
      simpl in Hs1, Hrc1; [| by exists new1 | by exists new1].
    destruct (IH (S i) st1 w1) as (new2 & Hs2 & Hp2 & Hrc2).
    exists (new1 ++ new2). split; [by rewrite Hs2, Hs1, <-(assoc_L (++))|].
    split.
    + rewrite fmap_app, Hp1, Hp2, Hs1, !length_app, seq_app. do 2 f_equal.
    + intros k Hk. apply Hrc2. destruct (Hrc1 k Hk) as [?|?]; [by left|].
      by right.
Qed.

(** The processes added by a loop that has ended, in any way, have no
    [returncode]. *)
Lemma sh_loop_new_unwaited n i commands st w :
  ∃ new,
    spawned (sh_loop sys kwargs n i commands st w).2 = spawned w ++ new
    ∧ Forall (λ p, returncodes (sh_loop sys kwargs n i commands st w).2
                     !! pid p = None) new.
Proof.
  destruct (sh_loop_fresh n i commands st w) as (new & Hs & Hp & Hrc).
  exists new. split; [done|]. apply Forall_forall. intros p Hin.
  apply (list_elem_of_fmap_2 pid) in Hin. rewrite Hp in Hin.
  apply elem_of_seq in Hin.
  destruct (Hrc (pid p)) as [?|Hge]; [right; lia | done |].
  rewrite Hs, length_app in Hge. lia.
Qed.

End fresh_processes.

(** X11. When [sh] raises, no process has been waited for: nothing is
    reaped, and the processes created before the failure are in the table
    with no [returncode]. *)
Theorem sh_raise_reaps_nothing
    (sys : os) (kwargs : bindings) (pipeline : string) (w : world)
    (e : exn) (w' : world) :
  sh sys kwargs pipeline w = (Raise e, w') →
  reaped w' = reaped w
  ∧ ∃ new, spawned w' = spawned w ++ new
      ∧ Forall (λ p, returncodes w' !! pid p = None) new.
Proof.
  unfold sh, bind.
  destruct (sh_loop_any sys kwargs (length (split_pipe pipeline)) 0
              (split_pipe pipeline) (Locals [] false false) w)
    as (_ & Hr & _).
  destruct (sh_loop_new_unwaited sys kwargs (length (split_pipe pipeline)) 0
              (split_pipe pipeline) (Locals [] false false) w) as [new Hnew].
  fold (sh_build sys kwargs pipeline) in Hr, Hnew.
  destruct (sh_build sys kwargs pipeline w) as [[st|e'|] w1] eqn:Hrun;
    simpl in Hr, Hnew; [| | done].
  - destruct (headpipe st || tailpipe st).
    + unfold Pipeline_init, raise, ret.
      destruct (head (l_procs st)), (last (l_procs st));
        intros [= <- <-]; (split; [done | by exists new]).
    + destruct (l_procs st) as [|p ps] eqn:Hl.
      * simpl. unfold raise. intros [= <- <-]. split; [done | by exists new].
      * destruct (wait_all_any sys (p :: ps) w1) as (Hw & _).
        destruct (wait_all sys (p :: ps) w1) as [[[]| |] w2];
          simpl in Hw; try done.
        unfold bind, Popen_returncode, ret.
        destruct (last (p :: ps)) eqn:Hlast; [by intros [=]|].
        by apply last_None in Hlast.
  - intros [= <- <-]. split; [done | by exists new].
Qed.

(** [sh("true | $opts")] with [opts] bound to the empty sequence: [true]
    is created, the second [Popen] raises, and [true] is never waited
    for. *)
Lemma sh_raise_reaps_nothing_demo :
  reaped (World [Process 0 ["true"] Inherit PIPE None None] (delete 0 ∅)
            [] [])
  = reaped fresh_world
  ∧ ∃ new,
      spawned (World [Process 0 ["true"] Inherit PIPE None None]
                 (delete 0 ∅) [] [])
      = spawned fresh_world ++ new
      ∧ Forall (λ p, returncodes
                       (World [Process 0 ["true"] Inherit PIPE None None]
                          (delete 0 ∅) [] []) !! pid p = None) new.
Proof.
  apply (sh_raise_reaps_nothing demo_os {["opts" := VSeq []]}
           "true | $opts" fresh_world IndexError).
  reflexivity.
Defined.

(** X12. [IndexError] comes out of [sh] in two situations only: no segment
    has a word, and [Pipeline([])] indexes the empty list of processes; or
    some segment that has words expands to no word at all, and [Popen]
    indexes the empty argument vector. *)
Theorem sh_index_error_causes
    (sys : os) (kwargs : bindings) (pipeline : string) (w w' : world) :
  sh sys kwargs pipeline w = (Raise IndexError, w') →
  Forall (λ c, split_ws c = []) (split_pipe pipeline)
  ∨ Exists (λ c, split_ws c ≠ [] ∧ expandvars (split_ws c) kwargs = [])
      (split_pipe pipeline).
Proof.
  unfold sh, bind.
  destruct (sh_build sys kwargs pipeline w) as [[st|e'|] w1] eqn:Hrun;
    [| | by intros [=]].
  - intros Hraise. left.
    pose proof (sh_build_Ok _ _ _ _ _ _ Hrun) as Hok. cbv zeta in Hok.
    destruct Hok as (Hp & _).
    assert (Hnone : l_procs st = [] →
                    Forall (λ c, split_ws c = []) (split_pipe pipeline)).
    { rewrite Hp. intros Hnil. apply plan_nil in Hnil.
      eapply Forall_impl; [exact Hnil|]. intros c. apply is_empty_true. }
    revert Hraise. destruct (headpipe st || tailpipe st).
    + unfold Pipeline_init, raise, ret.
      destruct (l_procs st) as [|p ps] eqn:Hl; [by intros _; apply Hnone|].
      simpl. destruct (last (p :: ps)) eqn:Hlast; [by intros [=]|].
      by apply last_None in Hlast.
    + destruct (l_procs st) as [|p ps] eqn:Hl; [by intros _; apply Hnone|].
      destruct (wait_all_any sys (p :: ps) w1) as (Hw & _).
      destruct (wait_all sys (p :: ps) w1) as [[[]| |] w2];
        simpl in Hw; try done.
      unfold bind, Popen_returncode, ret.
      destruct (last (p :: ps)) eqn:Hlast; [by intros [=]|].
      by apply last_None in Hlast.
  - intros [= -> <-]. right. by eapply sh_loop_index_error.
Qed.

(** [sh("$opts | sort")] with [opts] bound to the empty sequence raises
    [IndexError] although its segments have words. *)
Lemma sh_index_error_causes_demo :
  Forall (λ c, split_ws c = []) (split_pipe "$opts | sort")
  ∨ Exists (λ c, split_ws c ≠ []
                 ∧ expandvars (split_ws c) {["opts" := VSeq []]} = [])
      (split_pipe "$opts | sort").
Proof.
  apply (sh_index_error_causes demo_os {["opts" := VSeq []]}
           "$opts | sort" fresh_world fresh_world).
  reflexivity.
Defined.

(** X13. All [sh] ever prints to [sys.stderr] is its warning, at most once
    per empty segment that is neither first nor last, whatever way the call
    ends. *)
Theorem sh_prints_only_warnings
    (sys : os) (kwargs : bindings) (pipeline : string) (w : world) :
  ∃ k : nat,
    (k ≤ length (filter (λ c, split_ws c = [])
                   (interior (split_pipe pipeline))))%nat
    ∧ stderr (sh sys kwargs pipeline w).2 = stderr w ++ replicate k WARNING.
Proof.
  unfold sh, bind.
  destruct (sh_loop_any sys kwargs (length (split_pipe pipeline)) 0
              (split_pipe pipeline) (Locals [] false false) w)
    as (_ & _ & (k & Hk & He) & _).
  rewrite warnings_interior in Hk.
  fold (sh_build sys kwargs pipeline) in He.
  exists k. split; [done|].
  destruct (sh_build sys kwargs pipeline w) as [[st|e'|] w1] eqn:Hrun;
    simpl in He; [| done | done].
  destruct (headpipe st || tailpipe st).
  - unfold Pipeline_init, raise, ret.
    by destruct (head (l_procs st)), (last (l_procs st)).
  - destruct (wait_all_any sys (l_procs st) w1) as (_ & _ & Hw & _).
    rewrite <-He, <-Hw.
    destruct (wait_all sys (l_procs st) w1) as [[[]| |] w2]; try done.
    unfold raise, bind, Popen_returncode, ret.
    by destruct (last (l_procs st)).
Qed.

(** X14. [sh] acts on the processes it creates and on no other: the
    processes that existed stay in the table, keep their [returncode], and
    are not among the processes [sh] reaps, whatever way the call ends. *)
Theorem sh_leaves_other_processes
    (sys : os) (kwargs : bindings) (pipeline : string) (w : world) :
  (∃ new, spawned (sh sys kwargs pipeline w).2 = spawned w ++ new)
  ∧ (∀ k : nat, (k < length (spawned w))%nat →
       returncodes (sh sys kwargs pipeline w).2 !! k = returncodes w !! k)
  ∧ ∃ l, reaped (sh sys kwargs pipeline w).2 = reaped w ++ l
      ∧ Forall (λ k : nat, (length (spawned w) ≤ k)%nat) l.
Proof.
  unfold sh, bind.
  destruct (sh_loop_any sys kwargs (length (split_pipe pipeline)) 0
              (split_pipe pipeline) (Locals [] false false) w)
    as (_ & Hr & _ & Hs & Hrc).
  fold (sh_build sys kwargs pipeline) in Hr, Hs, Hrc.
  assert (Hnil : ∃ l, reaped w = reaped w ++ l
                   ∧ Forall (λ k : nat, (length (spawned w) ≤ k)%nat) l).
  { exists []. by rewrite app_nil_r. }
  destruct (sh_build sys kwargs pipeline w) as [[st|e'|] w1] eqn:Hrun;
    simpl in Hr, Hs, Hrc;
    [| by simpl; rewrite Hr | by simpl; rewrite Hr].
  destruct (headpipe st || tailpipe st).
  - unfold Pipeline_init, raise, ret.
    destruct (head (l_procs st)), (last (l_procs st)); simpl;
      by rewrite Hr.
  - pose proof (sh_build_Ok _ _ _ _ _ _ Hrun) as Hok. cbv zeta in Hok.
    destruct Hok as (Hp & _).
    assert (Hpids : ∀ k, k ∈ pid <$> l_procs st →
                         (length (spawned w) ≤ k)%nat).
    { intros k Hk. rewrite Hp, plan_pids in Hk.
      apply elem_of_seq in Hk. lia. }
    destruct (wait_all_any sys (l_procs st) w1)
      as (_ & Hs2 & _ & Hrc2 & (l & Hl & Hsub)).
    assert (Hfinal : (∃ new, spawned (wait_all sys (l_procs st) w1).2
                             = spawned w ++ new)
              ∧ (∀ k : nat, (k < length (spawned w))%nat →
                   returncodes (wait_all sys (l_procs st) w1).2 !! k
                   = returncodes w !! k)
              ∧ ∃ l, reaped (wait_all sys (l_procs st) w1).2 = reaped w ++ l
                  ∧ Forall (λ k : nat, (length (spawned w) ≤ k)%nat) l).
    { split; [by rewrite Hs2|]. split.
      - intros k Hk. rewrite Hrc2, Hrc; [done | done |].
        intros Hin. apply Hpids in Hin. lia.
      - exists l. rewrite Hl, Hr. split; [done|].
        eapply Forall_impl; [exact Hsub|]. intros k. apply Hpids. }
    destruct (wait_all sys (l_procs st) w1) as [[[]| |] w2]; try done.
    unfold raise, bind, Popen_returncode, ret.
    by destruct (last (l_procs st)).
Qed.

(** The ids and the stream arguments of the planned processes do not
    depend on the bindings. *)
Lemma plan_shape (kwargs kwargs' : bindings) n i commands base hd
    (prev prev' : option process) :
  (λ p, (pid p, stdout_arg p)) <$> prev
  = (λ p, (pid p, stdout_arg p)) <$> prev' →
  (λ p, (pid p, stdin_arg p, stdout_arg p))
    <$> plan kwargs n i commands base hd prev
  = (λ p, (pid p, stdin_arg p, stdout_arg p))
      <$> plan kwargs' n i commands base hd prev'.
Proof.
  revert i base hd prev prev'.
  induction commands as [|c rest IH]; intros i base hd prev prev' Hprev;
    [done|].
  cbn [plan]. destruct (is_empty c); [by apply IH|].
  rewrite !fmap_cons. f_equal.
  - simpl. do 2 f_equal.
    destruct prev as [q|], prev' as [q'|]; simpl in Hprev; try done.
    injection Hprev as Hpid Hout. unfold proc_stdout. by rewrite Hpid, Hout.
  - by apply IH.
Qed.

(** X15. The values bound to the variables cannot change the shape of the
    pipeline. Two completed builds of the same pipeline string from the
    same world, under any two binding maps, have the same number of
    processes with the same ids and the same stream wiring, the same flags
    and the same warnings: a value never adds a command or a pipe. *)
Theorem sh_shape_independent_of_bindings
    (sys sys' : os) (kwargs kwargs' : bindings) (pipeline : string)
    (w : world) (st st' : locals) (w1 w1' : world) :
  sh_build sys kwargs pipeline w = (Ok st, w1) →
  sh_build sys' kwargs' pipeline w = (Ok st', w1') →
  (λ p, (pid p, stdin_arg p, stdout_arg p)) <$> l_procs st
  = (λ p, (pid p, stdin_arg p, stdout_arg p)) <$> l_procs st'
  ∧ headpipe st = headpipe st'
  ∧ tailpipe st = tailpipe st'
  ∧ stderr w1 = stderr w1'.
Proof.
  intros Hrun Hrun'.
  apply sh_build_Ok in Hrun. apply sh_build_Ok in Hrun'.
  cbv zeta in Hrun, Hrun'.
  destruct Hrun as (Hp & _ & He & _ & _ & Hh & Ht).
  destruct Hrun' as (Hp' & _ & He' & _ & _ & Hh' & Ht').
  rewrite Hp, Hp', He, He', Hh, Hh', Ht, Ht'. split; [|done].
  by apply plan_shape.
Qed.

(** A value with a pipe and blanks in it, and a sequence of two, against a
    plain word: two processes every time. *)
Lemma sh_shape_independent_of_bindings_demo :
  (λ p, (pid p, stdin_arg p, stdout_arg p))
    <$> [Process 0 ["echo"; "a | b"] Inherit PIPE None None;
         Process 1 ["cat"] (File (StdoutOf 0)) Inherit None None]
  = (λ p, (pid p, stdin_arg p, stdout_arg p))
      <$> [Process 0 ["echo"; "a"; "b"] Inherit PIPE None None;
           Process 1 ["cat"] (File (StdoutOf 0)) Inherit None None]
  ∧ false = false ∧ false = false ∧ @nil string = [].
Proof.
  apply (sh_shape_independent_of_bindings demo_os demo_os
           {["x" := VStr "a | b"]} {["x" := VSeq ["a"; "b"]]}
           "echo $x | cat" fresh_world
           (Locals [Process 0 ["echo"; "a | b"] Inherit PIPE None None;
                    Process 1 ["cat"] (File (StdoutOf 0)) Inherit None None]
              false false)
           (Locals [Process 0 ["echo"; "a"; "b"] Inherit PIPE None None;
                    Process 1 ["cat"] (File (StdoutOf 0)) Inherit None None]
              false false)
           (World [Process 0 ["echo"; "a | b"] Inherit PIPE None None;
                   Process 1 ["cat"] (File (StdoutOf 0)) Inherit None None]
              (delete 1 (delete 0 ∅)) [] [])
           (World [Process 0 ["echo"; "a"; "b"] Inherit PIPE None None;
                   Process 1 ["cat"] (File (StdoutOf 0)) Inherit None None]
              (delete 1 (delete 0 ∅)) [] [])).
  - reflexivity.
  - reflexivity.
Defined.

(** ** More on Pipeline *)

(** X16. [wait] on processes that have not been waited for and that all
    exit: every process is reaped, in the order of the list, and the value
    returned is the exit status of the last process, whatever the others
    exited with. *)
Theorem wait_returns_last_status
    (sys : os) (self : Pipeline) (w : world) (final : process) :
  NoDup (pid <$> procs self) →
  Forall (λ p, returncodes w !! pid p = None) (procs self) →
  Forall (λ p, is_Some (os_exit sys p)) (procs self) →
  last (procs self) = Some final →
  ∃ w2, wait sys self w = (Ok (os_exit sys final), w2)
    ∧ reaped w2 = reaped w ++ (pid <$> procs self)
    ∧ Forall (λ p, returncodes w2 !! pid p = os_exit sys p) (procs self).
Proof.
  intros Hnd Hnone Hexit Hlast.
  destruct (wait_all_fresh sys (procs self) w Hnd Hnone Hexit)
    as (w2 & Hwait & _ & _ & Hr & Hrc & _).
  exists w2. split; [|done].
  unfold wait, bind. rewrite Hwait. unfold returncode. rewrite Hlast.
  unfold Popen_returncode. rewrite Forall_forall in Hrc.
  by rewrite (Hrc final (last_Some_elem_of _ _ Hlast)).
Qed.

Lemma wait_returns_last_status_demo :
  ∃ w2,
    wait demo_os
      (MkPipeline [Process 0 ["false"] PIPE PIPE None None;
                   Process 1 ["true"] (File (StdoutOf 0)) Inherit None None]
         (Some (StdinOf 0)) None)
      (World [Process 0 ["false"] PIPE PIPE None None;
              Process 1 ["true"] (File (StdoutOf 0)) Inherit None None]
         ∅ [] [])
    = (Ok (Some 0%Z), w2)
    ∧ reaped w2 = [0; 1]
    ∧ Forall (λ p, returncodes w2 !! pid p = os_exit demo_os p)
        [Process 0 ["false"] PIPE PIPE None None;
         Process 1 ["true"] (File (StdoutOf 0)) Inherit None None].
Proof.
  apply (wait_returns_last_status demo_os
           (MkPipeline [Process 0 ["false"] PIPE PIPE None None;
                        Process 1 ["true"] (File (StdoutOf 0)) Inherit
                          None None] (Some (StdinOf 0)) None)
           (World [Process 0 ["false"] PIPE PIPE None None;
                   Process 1 ["true"] (File (StdoutOf 0)) Inherit None None]
              ∅ [] [])
           (Process 1 ["true"] (File (StdoutOf 0)) Inherit None None)).
  - apply (NoDup_seq 0 2).
  - repeat constructor.
  - repeat constructor; by eexists.
  - reflexivity.
Defined.

(** What a handle returned by [sh] holds: the processes of the build, which
    have distinct ids and no [returncode]. *)
Lemma sh_handle_procs
    (sys : os) (kwargs : bindings) (pipeline : string) (w : world)
    (h : Pipeline) (w' : world) :
  sh sys kwargs pipeline w = (Ok (Handle h), w') →
  NoDup (pid <$> procs h)
  ∧ Forall (λ p, returncodes w' !! pid p = None) (procs h)
  ∧ procs h ≠ [].
Proof.
  unfold sh, bind.
  destruct (sh_build sys kwargs pipeline w) as [[st| |] w1] eqn:Hrun;
    try by intros [=].
  pose proof (sh_build_Ok _ _ _ _ _ _ Hrun) as Hok. cbv zeta in Hok.
  destruct Hok as (Hp & _ & _ & _ & Hrc & _).
  destruct (headpipe st || tailpipe st).
  - unfold Pipeline_init, raise, ret.
    destruct (head (l_procs st)) as [first|] eqn:Hfirst; [|by intros [=]].
    destruct (last (l_procs st)) as [final|]; [|by intros [=]].
    intros [= <- <-]. simpl. split; [|split].
    + rewrite Hp, plan_pids. apply NoDup_seq.
    + by apply Forall_forall.
    + intros Hnil. by rewrite Hnil in Hfirst.
  - destruct (wait_all sys (l_procs st) w1) as [[[]| |] w2];
      try by intros [=].
    unfold raise, bind, Popen_returncode, ret.
    by destruct (last (l_procs st)); intros [=].
Qed.

(** X17. On a handle just returned by [sh], with processes that all exit,
    [ok] reaps every process in pipeline order and is [True] exactly when
    the last process exits with status 0: a failure further up the pipeline
    does not show. *)
Theorem sh_handle_ok
    (sys : os) (kwargs : bindings) (pipeline : string) (w : world)
    (h : Pipeline) (w' : world) :
  sh sys kwargs pipeline w = (Ok (Handle h), w') →
  Forall (λ p, is_Some (os_exit sys p)) (procs h) →
  ∃ final w2,
    last (procs h) = Some final
    ∧ ok sys h w' = (Ok (bool_decide (os_exit sys final = Some 0%Z)), w2)
    ∧ reaped w2 = reaped w' ++ (pid <$> procs h).
Proof.
  intros Hrun Hexit.
  destruct (sh_handle_procs _ _ _ _ _ _ Hrun) as (Hnd & Hnone & Hne).
  destruct (last (procs h)) as [final|] eqn:Hlast;
    [|by apply last_None in Hlast].
  destruct (wait_all_fresh sys (procs h) w' Hnd Hnone Hexit)
    as (w2 & Hwait & _ & _ & Hr & Hrc & _).
  exists final, w2. split; [done|]. split; [|done].
  unfold ok, wait, bind. rewrite Hwait. unfold returncode. rewrite Hlast.
  unfold Popen_returncode, ret. rewrite Forall_forall in Hrc.
  by rewrite (Hrc final (last_Some_elem_of _ _ Hlast)).
Qed.

(** [sh("| false | true | ")] on the example system: [ok] is [True]. *)
Lemma sh_handle_ok_demo :
  ∃ final w2,
    last [Process 0 ["false"] PIPE PIPE None None;
          Process 1 ["true"] (File (StdoutOf 0)) PIPE None None]
    = Some final
    ∧ ok demo_os
        (MkPipeline [Process 0 ["false"] PIPE PIPE None None;
                     Process 1 ["true"] (File (StdoutOf 0)) PIPE None None]
           (Some (StdinOf 0)) (Some (StdoutOf 1)))
        (World [Process 0 ["false"] PIPE PIPE None None;
                Process 1 ["true"] (File (StdoutOf 0)) PIPE None None]
           (delete 1 (delete 0 ∅)) [] [])
      = (Ok (bool_decide (os_exit demo_os final = Some 0%Z)), w2)
    ∧ reaped w2 = [] ++ [0; 1].
Proof.
  apply (sh_handle_ok demo_os ∅ "| false | true | " fresh_world
           (MkPipeline [Process 0 ["false"] PIPE PIPE None None;
                        Process 1 ["true"] (File (StdoutOf 0)) PIPE
                          None None]
              (Some (StdinOf 0)) (Some (StdoutOf 1)))
           (World [Process 0 ["false"] PIPE PIPE None None;
                   Process 1 ["true"] (File (StdoutOf 0)) PIPE None None]
              (delete 1 (delete 0 ∅)) [] [])).
  - reflexivity.
  - repeat constructor; by eexists.
Defined.

(** X18. [wait] takes the processes in order: it does not return while a
    process that has not been waited for never exits, even when the
    processes after it, the last one included, have exited. *)
Theorem wait_blocks_on_first_running
    (sys : os) (self : Pipeline) (w : world)
    (before : list process) (p : process) (after : list process) :
  procs self = before ++ p :: after →
  Forall (λ q, is_Some (returncodes w !! pid q) ∨ is_Some (os_exit sys q))
    before →
  pid p ∉ pid <$> before →
  returncodes w !! pid p = None →
  os_exit sys p = None →
  ∃ w', wait sys self w = (Blocked, w')
    ∧ returncodes w' !! pid p = None.
Proof.
  intros Hprocs Hbefore Hfresh Hnone Hexit. unfold wait, bind.
  rewrite Hprocs. clear Hprocs.
  assert (Hwait : ∃ w', wait_all sys (before ++ p :: after) w = (Blocked, w')
                    ∧ returncodes w' !! pid p = None).
  { revert w Hbefore Hnone.
    induction before as [|q qs IH]; intros w Hbefore Hnone.
    - simpl. rewrite wait_all_cons. unfold Popen_wait.
      rewrite Hnone, Hexit. by exists w.
    - rewrite fmap_cons in Hfresh.
      apply not_elem_of_cons in Hfresh as [Hpq Hfresh].
      apply Forall_cons in Hbefore as [Hq Hbefore].
      rewrite <-app_comm_cons, wait_all_cons. unfold Popen_wait.
      destruct (returncodes w !! pid q) as [rc|] eqn:Hrc; [by apply IH|].
      destruct Hq as [[? ?]|[rc Hex]]; [done|]. rewrite Hex.
      apply IH; [done| |].
      + eapply Forall_impl; [exact Hbefore|]. intros r [Hr|Hr]; [|by right].
        left. simpl. destruct (decide (pid q = pid r)) as [->|Hqr].
        * rewrite lookup_insert_eq. by eexists.
        * by rewrite lookup_insert_ne.
      + simpl. by rewrite lookup_insert_ne. }
  destruct Hwait as (w' & -> & Hrc). by exists w'.
Qed.

Lemma wait_blocks_on_first_running_demo :
  ∃ w', wait (OS (λ _ _, true)
                (λ q, match args q with
                      | "yes" :: _ => None
                      | _ => Some 0%Z
                      end))
          (MkPipeline [Process 0 ["yes"] Inherit PIPE None None;
                       Process 1 ["true"] (File (StdoutOf 0)) Inherit
                         None None] None None)
          (World [Process 0 ["yes"] Inherit PIPE None None;
                  Process 1 ["true"] (File (StdoutOf 0)) Inherit None None]
             ∅ [] [])
        = (Blocked, w')
    ∧ returncodes w' !! 0 = None.
Proof.
  apply (wait_blocks_on_first_running _ _ _ []
           (Process 0 ["yes"] Inherit PIPE None None)
           [Process 1 ["true"] (File (StdoutOf 0)) Inherit None None]).
  - reflexivity.
  - constructor.
  - apply not_elem_of_nil.
  - reflexivity.
  - reflexivity.
Defined.

(** X19. A [wait] that returns gives an exit status, never [None], and a
    second [wait] returns the same status without waiting for or reaping
    any process. *)
Theorem wait_settles
    (sys : os) (self : Pipeline) (w : world) (r : option Z) (w1 : world) :
  wait sys self w = (Ok r, w1) →
  is_Some r ∧ wait sys self w1 = (Ok r, w1).
Proof.
  unfold wait, bind.
  destruct (wait_all sys (procs self) w) as [[u| |] w0] eqn:Hwait;
    try by intros [=].
  apply wait_all_Ok in Hwait as [_ Hall].
  unfold returncode, raise, Popen_returncode.
  destruct (last (procs self)) as [final|] eqn:Hlast; [|by intros [=]].
  intros [= <- <-]. split.
  - rewrite Forall_forall in Hall.
    apply Hall. by eapply last_Some_elem_of.
  - by rewrite (wait_all_done sys _ _ Hall).
Qed.

Lemma wait_settles_demo :
  is_Some (Some 1%Z)
  ∧ wait demo_os
      (MkPipeline [Process 0 ["false"] Inherit Inherit None None] None None)
      (World [Process 0 ["false"] Inherit Inherit None None]
         (<[0 := 1%Z]> ∅) [] [0])
    = (Ok (Some 1%Z),
       World [Process 0 ["false"] Inherit Inherit None None]
         (<[0 := 1%Z]> ∅) [] [0]).
Proof.
  apply (wait_settles demo_os
           (MkPipeline [Process 0 ["false"] Inherit Inherit None None]
              None None)
           (World [Process 0 ["false"] Inherit Inherit None None] ∅ [] [])).
  reflexivity.
Defined.

(** ** What sh does not look at *)

Section insensitive.
Context (sys : os).

Lemma sh_loop_words kwargs n i commands commands' st w :
  Forall2 (λ c c', split_ws c = split_ws c') commands commands' →
  sh_loop sys kwargs n i commands st w
  = sh_loop sys kwargs n i commands' st w.
Proof.
  intros Hall. revert i st w.
  induction Hall as [|c c' rest rest' Hc _ IH]; intros i st w; [done|].
  rewrite !sh_loop_cons.
  assert (Hbody : sh_body sys kwargs n i c st w
                  = sh_body sys kwargs n i c' st w).
  { unfold sh_body. by rewrite Hc. }
  rewrite Hbody.
  destruct (sh_body sys kwargs n i c' st w) as [[st1| |] w1];
    [apply IH | done | done].
Qed.

Lemma sh_loop_ext kwargs kwargs' n i commands st w :
  (∀ c word name, c ∈ commands → word ∈ split_ws c →
     variable_of word = Some name → kwargs !! name = kwargs' !! name) →
  kwargs !! "_cwd" = kwargs' !! "_cwd" →
  kwargs !! "_env" = kwargs' !! "_env" →
  sh_loop sys kwargs n i commands st w
  = sh_loop sys kwargs' n i commands st w.
Proof.
  intros Hnames Hcwd Henv. revert i st w.
  induction commands as [|c rest IH]; intros i st w; [done|].
  rewrite !sh_loop_cons.
  assert (Hbody : sh_body sys kwargs n i c st w
                  = sh_body sys kwargs' n i c st w).
  { unfold sh_body. rewrite Hcwd, Henv.
    rewrite (expandvars_ext (split_ws c) kwargs kwargs'); [done|].
    apply Forall_forall. intros word Hword name Hvar.
    eapply Hnames; [by left | done | done]. }
  rewrite Hbody.
  destruct (sh_body sys kwargs' n i c st w) as [[st1| |] w1]; try done.
  apply IH. intros c' word name Hc'. apply Hnames. by right.
Qed.

End insensitive.

(** X20. Only the words of a segment count, not the white space around
    them: two pipeline strings whose segments have the same words, one by
    one, make [sh] do the same thing. *)
Theorem sh_whitespace_insignificant
    (sys : os) (kwargs : bindings) (pipeline pipeline' : string) (w : world) :
  Forall2 (λ c c', split_ws c = split_ws c')
    (split_pipe pipeline) (split_pipe pipeline') →
  sh sys kwargs pipeline w = sh sys kwargs pipeline' w.
Proof.
  intros Hall. unfold sh, sh_build, bind.
  rewrite (Forall2_length _ _ _ Hall).
  by rewrite (sh_loop_words sys kwargs _ _ _ _ _ _ Hall).
Qed.

Lemma sh_whitespace_insignificant_demo :
  sh demo_os ∅ "grep   x|sort" fresh_world
  = sh demo_os ∅ " grep x | sort " fresh_world.
Proof.
  apply (sh_whitespace_insignificant demo_os ∅ "grep   x|sort"
           " grep x | sort " fresh_world).
  repeat constructor.
Defined.

(** X21. Of the keyword arguments, [sh] looks at the names its words refer
    to, at [_cwd] and at [_env], and at nothing else: two maps that agree
    there make [sh] do the same thing. *)
Theorem sh_unused_bindings_ignored
    (sys : os) (kwargs kwargs' : bindings) (pipeline : string) (w : world) :
  (∀ c word name, c ∈ split_pipe pipeline → word ∈ split_ws c →
     variable_of word = Some name → kwargs !! name = kwargs' !! name) →
  kwargs !! "_cwd" = kwargs' !! "_cwd" →
  kwargs !! "_env" = kwargs' !! "_env" →
  sh sys kwargs pipeline w = sh sys kwargs' pipeline w.
Proof.
  intros Hnames Hcwd Henv. unfold sh, sh_build, bind.
  by rewrite (sh_loop_ext sys kwargs kwargs' _ _ _ _ _ Hnames Hcwd Henv).
Qed.

Lemma sh_unused_bindings_ignored_demo :
  sh demo_os {["msg" := VStr "hi"]} "echo $msg" fresh_world
  = sh demo_os (<["other" := VSeq ["x"; "y"]]> {["msg" := VStr "hi"]})
      "echo $msg" fresh_world.
Proof.
  apply (sh_unused_bindings_ignored demo_os {["msg" := VStr "hi"]}
           (<["other" := VSeq ["x"; "y"]]> {["msg" := VStr "hi"]})
           "echo $msg" fresh_world).
  - intros c word name Hc Hword Hvar.
    apply list_elem_of_singleton in Hc as ->.
    apply elem_of_cons in Hword as [->|Hword]; [discriminate|].
    apply list_elem_of_singleton in Hword as ->.
    injection Hvar as <-. reflexivity.
  - reflexivity.
  - reflexivity.
Defined.
